(** * p-ratelimit: the limiter of [src/rateLimit.ts]

    A shallow embedding of [pRateLimit]: the closure state of one limiter
    instance ([isClosed], [queue], [timerId], the quota manager), the
    closures built by each call of [limiter] (its own [timerId], the
    [resolve]/[reject] pair of the promise it returns), and the part of the
    JavaScript event loop the code talks to (pending timers, the promise
    reactions that are still to run).  Every function of the source is a
    function on that state; what the outside world does (a caller calls
    [limiter] or [cleanup], a timer fires, a task's promise settles, a
    promise reaction runs) is an [Input].

    What the model takes from JavaScript:
    - a promise settles once: [resolve] and [reject] of a settled promise
      do nothing, and a [throw] in the executor of [new Promise] rejects
      the promise;
    - [fn().then(A).catch(B).then(C)]: when the promise of [fn()] settles,
      [A] (if it fulfils) or [B] (if it rejects) runs, and [C] runs later
      as a reaction of its own, so a caller's code can run in between;
    - a timer callback runs only when no reaction is left to run; the
      model has no clock, so pending timers may fire in any order;
    - a task factory is opaque: it returns a promise (it does not throw
      and does not call the limiter before it returns), and the manager's
      [start()], [end()] and [close()] return normally. *)

From stdpp Require Import gmap list strings sorting.
From Stdlib Require Import ZArith.

(** ** Values passed around *)

(** What a promise returned by [limiter] can be rejected with: one of the
    two errors the limiter constructs itself, or whatever the task's own
    promise was rejected with. *)
Inductive Reason (E : Type) : Type :=
  | AlreadyClosedError (message : string)
  | RateLimitTimeoutError (message : string)
  | TaskError (err : E).
Arguments AlreadyClosedError {E} message.
Arguments RateLimitTimeoutError {E} message.
Arguments TaskError {E} err.

Inductive Settlement (V E : Type) : Type :=
  | Fulfilled (val : V)
  | Rejected (reason : Reason E).
Arguments Fulfilled {V E} val.
Arguments Rejected {V E} reason.

Definition closedMessage : string :=
  "Limiter has been closed and cannot be used".
Definition timeoutMessage : string :=
  "queue maxDelay timeout exceeded".

(** What the deadline of line 54 rejects a promise with. *)
Abbreviation timedOut := (Rejected (RateLimitTimeoutError timeoutMessage)).

(** The callbacks the source hands to [setTimeout]: the poll of [next]
    (lines 38-41) and the deadline of one [limiter] call (lines 52-56). *)
Inductive Callback : Type :=
  | FallbackPoll
  | Deadline (call : nat).

#[global] Instance Callback_eq_dec : EqDecision Callback.
Proof. solve_decision. Defined.

(** Who called [next]: line 84, line 40, line 55, line 79. *)
Inductive Caller : Type :=
  | FromLimiter (call : nat)
  | FromFallback
  | FromDeadline (call : nat)
  | FromSettled (call : nat).

#[global] Instance Caller_eq_dec : EqDecision Caller.
Proof. solve_decision. Defined.

(** The calls the code makes, in the order it makes them. *)
Inductive Event (V E : Type) : Type :=
  | EStart (admitted : bool)
  | EEnd
  | EClose
  | EFactory (call : nat)
  | EResolve (call : nat) (val : V)
  | EReject (call : nat) (reason : Reason E)
  | ENext (by_ : Caller)
  | ESetTimeout (handle : nat) (cb : Callback) (ms : nat)
  | EClearTimeout (handle : nat).
Arguments EStart {V E} admitted.
Arguments EEnd {V E}.
Arguments EClose {V E}.
Arguments EFactory {V E} call.
Arguments EResolve {V E} call val.
Arguments EReject {V E} call reason.
Arguments ENext {V E} by_.
Arguments ESetTimeout {V E} handle cb ms.
Arguments EClearTimeout {V E} handle.

(** ** The quota manager *)

(** Modelled from the spec: the class [QuotaManager] ([./quota/quotaManager])
    is not part of the sources at hand.  It is taken as the interface the
    limiter uses: [start()], [end()], [close()] and the getters
    [activeCount] and [maxDelay] (section 4.1: "[maxDelay]: a non-negative
    number (0 or absent meaning no deadline) fixed at construction").  The
    manager's state is any type: a manager whose answers depend on the
    clock is a state that holds the readings to come. *)
Record QuotaManager (M : Type) : Type := {
  start : M → bool * M;
  end_ : M → M;
  close : M → M;
  activeCount : M → Z;
  maxDelay : nat
}.
Arguments start {M} _ _.
Arguments end_ {M} _ _.
Arguments close {M} _ _.
Arguments activeCount {M} _ _.
Arguments maxDelay {M} _.

(** ** One call of [limiter] *)

(** The variables one call of [limiter] closes over and mutates: its own
    [timerId] (line 50) and the state of the promise it returned. *)
Module Call.
Record t (V E : Type) : Type := mk {
  timerId : option nat;
  promise : option (Settlement V E)
}.
Arguments mk {V E} timerId promise.
Arguments timerId {V E} _.
Arguments promise {V E} _.
End Call.

(** ** The state *)

Record State (M V E : Type) : Type := mkState {
  isClosed : bool;
  quotaManager : M;
  queue : list nat;
  timerId : option nat;
  calls : list (Call.t V E);
  timers : gmap nat Callback;
  nextTimer : nat;
  running : list nat;
  reactions : list nat;
  log : list (Event V E)
}.
Arguments mkState {M V E}.
Arguments isClosed {M V E} _.
Arguments quotaManager {M V E} _.
Arguments queue {M V E} _.
Arguments timerId {M V E} _.
Arguments calls {M V E} _.
Arguments timers {M V E} _.
Arguments nextTimer {M V E} _.
Arguments running {M V E} _.
Arguments reactions {M V E} _.
Arguments log {M V E} _.

(** What the outside world does.  A task factory is opaque: the limiter
    calls it and gets a promise, which settles later, with a value or with
    an error ([TaskSettles]); the [.then(() => next())] of line 78 runs as
    a reaction of its own ([RunReaction]). *)
Inductive Input (V E : Type) : Type :=
  | CallLimiter
  | CallCleanup
  | TimerFires (handle : nat)
  | TaskSettles (call : nat) (outcome : V + E)
  | RunReaction.
Arguments CallLimiter {V E}.
Arguments CallCleanup {V E}.
Arguments TimerFires {V E} handle.
Arguments TaskSettles {V E} call outcome.
Arguments RunReaction {V E}.

Section Limiter.
Context {M V E : Type}.
Variable qm : QuotaManager M.

Abbreviation St := (State M V E).
Abbreviation Ev := (Event V E).

(** *** Field updates *)

Definition set_isClosed (b : bool) (s : St) : St :=
  mkState b (quotaManager s) (queue s) (timerId s) (calls s) (timers s)
          (nextTimer s) (running s) (reactions s) (log s).
Definition set_quotaManager (m : M) (s : St) : St :=
  mkState (isClosed s) m (queue s) (timerId s) (calls s) (timers s)
          (nextTimer s) (running s) (reactions s) (log s).
Definition set_queue (q : list nat) (s : St) : St :=
  mkState (isClosed s) (quotaManager s) q (timerId s) (calls s) (timers s)
          (nextTimer s) (running s) (reactions s) (log s).
Definition set_timerId (o : option nat) (s : St) : St :=
  mkState (isClosed s) (quotaManager s) (queue s) o (calls s) (timers s)
          (nextTimer s) (running s) (reactions s) (log s).
Definition set_calls (cs : list (Call.t V E)) (s : St) : St :=
  mkState (isClosed s) (quotaManager s) (queue s) (timerId s) cs (timers s)
          (nextTimer s) (running s) (reactions s) (log s).
Definition set_timers (ts : gmap nat Callback) (s : St) : St :=
  mkState (isClosed s) (quotaManager s) (queue s) (timerId s) (calls s) ts
          (nextTimer s) (running s) (reactions s) (log s).
Definition set_nextTimer (n : nat) (s : St) : St :=
  mkState (isClosed s) (quotaManager s) (queue s) (timerId s) (calls s)
          (timers s) n (running s) (reactions s) (log s).
Definition set_running (r : list nat) (s : St) : St :=
  mkState (isClosed s) (quotaManager s) (queue s) (timerId s) (calls s)
          (timers s) (nextTimer s) r (reactions s) (log s).
Definition set_reactions (r : list nat) (s : St) : St :=
  mkState (isClosed s) (quotaManager s) (queue s) (timerId s) (calls s)
          (timers s) (nextTimer s) (running s) r (log s).
Definition emit (e : Ev) (s : St) : St :=
  mkState (isClosed s) (quotaManager s) (queue s) (timerId s) (calls s)
          (timers s) (nextTimer s) (running s) (reactions s) (log s ++ [e]).

(** *** The event loop's timers and the promises *)

(** [setTimeout(cb, ms)]: a handle no timer had before. *)
Definition setTimeout (cb : Callback) (ms : nat) (s : St) : nat * St :=
  let h := nextTimer s in
  (h, emit (ESetTimeout h cb ms)
        (set_nextTimer (S h) (set_timers (<[h := cb]> (timers s)) s))).

Definition clearTimeout (h : nat) (s : St) : St :=
  emit (EClearTimeout h) (set_timers (delete h (timers s)) s).

(** A promise settles once: [resolve] and [reject] do nothing to a promise
    that is settled already. *)
Definition settle (o : Settlement V E) (c : Call.t V E) : Call.t V E :=
  match Call.promise c with
  | None => Call.mk (Call.timerId c) (Some o)
  | Some _ => c
  end.

Definition resolve (t : nat) (v : V) (s : St) : St :=
  emit (EResolve t v) (set_calls (alter (settle (Fulfilled v)) t (calls s)) s).

Definition reject (t : nat) (r : Reason E) (s : St) : St :=
  emit (EReject t r) (set_calls (alter (settle (Rejected r)) t (calls s)) s).

(** The assignment [timerId = ...] to the variable of call [t]. *)
Definition set_call_timerId (t : nat) (o : option nat) (s : St) : St :=
  set_calls (alter (λ c, Call.mk o (Call.promise c)) t (calls s)) s.

Definition timerOf (cs : list (Call.t V E)) (t : nat) : option nat :=
  c ← cs !! t; Call.timerId c.

Definition call_timerId (t : nat) (s : St) : option nat :=
  timerOf (calls s) t.

Definition promise (t : nat) (s : St) : option (option (Settlement V E)) :=
  Call.promise <$> calls s !! t.

(** *** [pRateLimit] (lines 22, 29, 30) *)

Definition pRateLimit (m : M) : St :=
  mkState false m [] None [] ∅ 0 [] [] [].

(** *** [cleanupFn] (lines 23-27) *)

Definition cleanupFn (s : St) : St :=
  if isClosed s then s
  else set_isClosed true
         (emit EClose (set_quotaManager (close qm (quotaManager s)) s)).

(** *** [run] (lines 59-81) *)

(** [fn()] and the three handlers put on its promise: the call is now one
    of the [running] ones, until the promise settles. *)
Definition callFactory (t : nat) (s : St) : St :=
  emit (EFactory t) (set_running (running s ++ [t]) s).

Definition run (t : nat) (s : St) : St :=
  if decide (maxDelay qm = 0) then callFactory t s
  else match call_timerId t s with
       | Some h => callFactory t (clearTimeout h s)
       | None => s
       end.

(** *** [next] (lines 32-43) *)

(** The [while] of lines 33-35.  [q] is what the queue holds; each turn
    shifts its head, so the loop is a recursion on it. *)
Fixpoint drain (q : list nat) (s : St) : St :=
  match q with
  | [] => s
  | t :: q' =>
      if isClosed s then s
      else
        let '(ok, m) := start qm (quotaManager s) in
        let s1 := emit (EStart ok) (set_quotaManager m s) in
        if ok then drain q' (run t (set_queue q' s1)) else s1
  end.

Definition shouldArm (s : St) : bool :=
  bool_decide (queue s ≠ [])
  && bool_decide (activeCount qm (quotaManager s) = 0%Z)
  && bool_decide (timerId s = None).

Definition arm (s : St) : St :=
  let '(h, s') := setTimeout FallbackPoll 100 s in set_timerId (Some h) s'.

Definition next (c : Caller) (s : St) : St :=
  let s1 := drain (queue s) (emit (ENext c) s) in
  if shouldArm s1 then arm s1 else s1.

(** *** [limiter] (lines 45-86) *)

(** The result is the number of the call, which names the promise it
    returns, and the state after the call. *)
(** Lines 50-57: the deadline of call [t], if the manager has a
    [maxDelay]. *)
Definition armDeadline (t : nat) (s : St) : St :=
  if decide (maxDelay qm = 0) then s
  else let '(h, s') := setTimeout (Deadline t) (maxDelay qm) s in
       set_call_timerId t (Some h) s'.

Definition limiter (s : St) : nat * St :=
  let t := length (calls s) in
  let s0 := set_calls (calls s ++ [Call.mk None None]) s in
  if isClosed s then (t, reject t (AlreadyClosedError closedMessage) s0)
  else
    let s1 := armDeadline t s0 in
    (t, next (FromLimiter t) (set_queue (queue s1 ++ [t]) s1)).

(** *** The callbacks *)

(** Lines 38-41 and 52-56. *)
Definition fire (cb : Callback) (s : St) : St :=
  match cb with
  | FallbackPoll => next FromFallback (set_timerId None s)
  | Deadline t =>
      next (FromDeadline t)
        (reject t (RateLimitTimeoutError timeoutMessage)
           (set_call_timerId t None s))
  end.

(** What the promise of a task settles with, as [resolve] or [reject]
    gets it. *)
Definition outcome (o : V + E) : Settlement V E :=
  match o with
  | inl v => Fulfilled v
  | inr e => Rejected (TaskError e)
  end.

(** Lines 70-77: the handler that runs when the task's promise settles. *)
Definition settled (t : nat) (o : V + E) (s : St) : St :=
  let s1 := emit EEnd (set_quotaManager (end_ qm (quotaManager s)) s) in
  let s2 := match o with
            | inl v => resolve t v s1
            | inr e => reject t (TaskError e) s1
            end in
  set_reactions (reactions s2 ++ [t]) s2.

(** *** One step of the event loop *)

(** An input that cannot happen in the state (a timer that is not
    pending, a task that is not running, a timer while reactions are
    still to run) leaves the state as it is. *)
Definition step (i : Input V E) (s : St) : St :=
  match i with
  | CallLimiter => snd (limiter s)
  | CallCleanup => cleanupFn s
  | TimerFires h =>
      match reactions s, timers s !! h with
      | [], Some cb => fire cb (set_timers (delete h (timers s)) s)
      | _, _ => s
      end
  | TaskSettles t o =>
      if decide (t ∈ running s)
      then settled t o (set_running (filter (λ u, u ≠ t) (running s)) s)
      else s
  | RunReaction =>
      match reactions s with
      | t :: rest => next (FromSettled t) (set_reactions rest s)
      | [] => s
      end
  end.

Definition exec (ins : list (Input V E)) (s : St) : St :=
  foldl (λ s i, step i s) s ins.

End Limiter.

(** ** A manager that bounds the number of running tasks *)

(** Modelled from the spec: a [QuotaManager] for a quota that has a
    concurrency limit and no rate (section 3: [start] "if admitted,
    increments [activeCount] and returns true, else returns false with no
    state change"; [end] "decrements [activeCount]"; after [close],
    "[start()] always false"). *)
Module Concurrency.
Record t : Type := mk { active : Z; closed : bool }.

Definition manager (concurrency : Z) (maxDelay : nat) : QuotaManager t := {|
  start m :=
    if closed m then (false, m)
    else if (active m <? concurrency)%Z then (true, mk (active m + 1) (closed m))
    else (false, m);
  end_ m := mk (active m - 1) (closed m);
  close m := mk (active m) true;
  activeCount m := active m;
  maxDelay := maxDelay
|}.

Definition fresh : t := mk 0 false.
End Concurrency.

(** ** A manager with a rate window *)

(** Modelled from the spec: a [QuotaManager] whose admissions depend on
    elapsed time and not only on what is active (section 4.2: "some quota
    policies (time-window based) regain capacity purely through elapsed
    time, not through [end()] calls").  What the window answers at each
    call of [start()] is written down in advance, and it admits when the
    answers run out; an admission "increments [activeCount]", [end()]
    "decrements [activeCount]", and after [close] "[start()] always
    false". *)
Module Window.
Record t : Type := mk { answers : list bool; active : Z; closed : bool }.

Definition manager (maxDelay : nat) : QuotaManager t := {|
  start m :=
    if closed m then (false, m)
    else match answers m with
         | false :: rest => (false, mk rest (active m) (closed m))
         | true :: rest => (true, mk rest (active m + 1) (closed m))
         | [] => (true, mk [] (active m + 1) (closed m))
         end;
  end_ m := mk (answers m) (active m - 1) (closed m);
  close m := mk (answers m) (active m) true;
  activeCount := active;
  maxDelay := maxDelay
|}.
End Window.

(** ** Reading the log *)

Section LogDefs.
Context {V E : Type}.

(** The calls whose task factory was called, in the order of the calls. *)
Definition started (l : list (Event V E)) : list nat :=
  omap (λ e, match e with EFactory t => Some t | _ => None end) l.

(** What [resolve] and [reject] of call [t] were called with. *)
Definition settlements (t : nat) (l : list (Event V E)) : list (Settlement V E) :=
  omap (λ e, match e with
             | EResolve u v => if decide (u = t) then Some (Fulfilled v) else None
             | EReject u r => if decide (u = t) then Some (Rejected r) else None
             | _ => None
             end) l.

Definition nexts (l : list (Event V E)) : list Caller :=
  omap (λ e, match e with ENext c => Some c | _ => None end) l.

Definition isStart (admitted : bool) (e : Event V E) : bool :=
  match e with EStart b => bool_decide (b = admitted) | _ => false end.
Definition isEnd (e : Event V E) : bool :=
  match e with EEnd => true | _ => false end.
Definition isClose (e : Event V E) : bool :=
  match e with EClose => true | _ => false end.
Definition isArm (e : Event V E) : bool :=
  match e with ESetTimeout _ FallbackPoll _ => true | _ => false end.

Definition count (f : Event V E → bool) (l : list (Event V E)) : nat :=
  length (filter (λ e, f e = true) l).

(** What the loop of [next] can add to the log, and what [next] can add
    after its own call. *)
Definition drainEvent (e : Event V E) : Prop :=
  match e with
  | EStart _ | EClearTimeout _ | EFactory _ => True
  | _ => False
  end.

Definition loopEvent (e : Event V E) : Prop :=
  match e with
  | EStart _ | EClearTimeout _ | EFactory _ => True
  | ESetTimeout _ FallbackPoll _ => True
  | _ => False
  end.

Definition settleEvent (t : nat) (o : Settlement V E) : Event V E :=
  match o with Fulfilled v => EResolve t v | Rejected r => EReject t r end.

Definition isCleanup (i : Input V E) : bool :=
  match i with CallCleanup => true | _ => false end.

Definition occurrences {A : Type} `{EqDecision A} (x : A) (l : list A) : nat :=
  length (filter (λ y, y = x) l).

Definition isTimeout (e : Event V E) : bool :=
  match e with EReject _ (RateLimitTimeoutError _) => true | _ => false end.

(** The entries of a queue whose promise is settled already: the ones
    their deadline has abandoned. *)
Definition abandonedIn (l : list (Event V E)) (q : list nat) : nat :=
  length (filter (λ t, settlements t l ≠ []) q).

(** An event that is none of the ones the accounts count. *)
Definition uncounted (e : Event V E) : Prop :=
  isEnd e = false ∧ isStart true e = false ∧ isTimeout e = false
  ∧ started [e] = [] ∧ ∀ t, settlements t [e] = [].

(** What a closed limiter can still add to the log: no [start()], no task
    factory, no [clearTimeout]. *)
Definition quiet (e : Event V E) : Prop :=
  match e with
  | EStart _ | EFactory _ | EClearTimeout _ => False
  | _ => True
  end.

End LogDefs.

Arguments occurrences : simpl never.

(** ** What is proved of the limiter *)

Section Properties.
Context {M V E : Type}.
Variable qm : QuotaManager M.

(** The fields the loop of [next] does not write, and what it adds to the
    log. *)
Definition loopFrame (s s' : State M V E) : Prop :=
  isClosed s' = isClosed s ∧ calls s' = calls s ∧ reactions s' = reactions s
  ∧ timerId s' = timerId s
  ∧ ∃ l, log s' = log s ++ l ∧ Forall drainEvent l.

(** What holds of the state between two inputs.  A call in the queue is
    either live (nothing settled its promise, and its deadline timer, if
    the manager has a [maxDelay], is pending) or abandoned (its deadline
    fired: [timerId] is null again and the promise was rejected once). *)
Record Inv (s : State M V E) : Prop := {
  inv_handles : ∀ h cb, timers s !! h = Some cb → h < nextTimer s;
  inv_fallback : ∀ h, timers s !! h = Some FallbackPoll ↔ timerId s = Some h;
  inv_deadline : ∀ h t,
    timers s !! h = Some (Deadline t) →
    t ∈ queue s ∧ call_timerId t s = Some h;
  inv_queue : ∀ t, t ∈ queue s →
    (settlements t (log s) = []
     ∧ (match call_timerId t s with
        | Some h => maxDelay qm ≠ 0 ∧ timers s !! h = Some (Deadline t)
        | None => maxDelay qm = 0
        end))
    ∨ (maxDelay qm ≠ 0 ∧ call_timerId t s = None
       ∧ settlements t (log s) = [timedOut]);
  inv_fifo : StronglySorted lt (started (log s) ++ queue s);
  inv_bound : ∀ t, t ∈ started (log s) ++ queue s → t < length (calls s);
  inv_promise : ∀ t c,
    calls s !! t = Some c → Call.promise c = head (settlements t (log s));
  inv_fresh : ∀ t, length (calls s) ≤ t → settlements t (log s) = [];
  inv_running : ∀ t, t ∈ running s →
    t ∈ started (log s) ∧ settlements t (log s) = []
    ∧ (t ∉ reactions s) ∧ (FromSettled t ∉ nexts (log s));
  inv_reacted : ∀ t,
    t ∈ reactions s ∨ FromSettled t ∈ nexts (log s) → t ∈ started (log s);
  inv_timeout : ∀ t msg,
    Rejected (RateLimitTimeoutError msg) ∈ settlements t (log s) →
    (t ∉ started (log s)) ∧ settlements t (log s) = [timedOut]
    ∧ call_timerId t s = None
}.

(** Where a call whose task has settled stands: its [next()] is still to
    run, or has run once. *)
Definition reacting (t : nat) (s : State M V E) : Prop :=
  t ∈ started (log s) ∧ (t ∉ running s)
  ∧ occurrences t (reactions s)
    + occurrences (FromSettled t) (nexts (log s)) = 1.

(** The poll timer firing, if one is armed. *)
Definition poll (s : State M V E) : State M V E :=
  match timerId s with
  | Some h => step qm (TimerFires h) s
  | None => s
  end.

(** The accounts of the limiter: who is running, how often [start()]
    succeeded and [end()] was called, and where each call stands. *)
Record Ledger (s : State M V E) : Prop := {
  led_running : NoDup (running s);
  led_ends :
    count isEnd (log s) + length (running s) = length (started (log s));
  led_starts :
    count (isStart true) (log s) + abandonedIn (log s) (queue s)
    = length (started (log s)) + count isTimeout (log s);
  led_once : ∀ t, length (settlements t (log s)) ≤ 1;
  led_placed : ∀ t,
    t < length (calls s) → settlements t (log s) = [] →
    t ∈ queue s ∨ t ∈ running s;
  led_no_timeout : maxDelay qm = 0 → count isTimeout (log s) = 0;
  led_admitted : length (started (log s)) ≤ count (isStart true) (log s)
}.

(** A manager that counts what it admits, up to a limit: [start()] adds
    one to [activeCount] when it returns true, which it does only below
    the limit, and leaves it alone otherwise; [end()] takes one away;
    [close()] leaves it alone. *)
Definition countsActive (limit : Z) : Prop :=
  (∀ m m', start qm m = (true, m') →
     (activeCount qm m < limit)%Z
     ∧ activeCount qm m' = (activeCount qm m + 1)%Z)
  ∧ (∀ m m', start qm m = (false, m') → activeCount qm m' = activeCount qm m)
  ∧ (∀ m, activeCount qm (end_ qm m) = (activeCount qm m - 1)%Z)
  ∧ (∀ m, activeCount qm (close qm m) = activeCount qm m).

(** What the manager holds, for a manager that counts what it admits. *)
Definition tallied (limit : Z) (s : State M V E) : Prop :=
  activeCount qm (quotaManager s)
  = (Z.of_nat (count (isStart true) (log s)) - Z.of_nat (count isEnd (log s)))%Z
  ∧ (activeCount qm (quotaManager s) ≤ Z.max 0 limit)%Z.

End Properties.

(** ** The limiter at work *)

Module Scenario.

Abbreviation In := (Input nat nat).

(** Concurrency 1, no [maxDelay]. *)
Definition one : QuotaManager Concurrency.t := Concurrency.manager 1 0.
(** Concurrency 1, [maxDelay] 50. *)
Definition timed : QuotaManager Concurrency.t := Concurrency.manager 1 50.

Definition init : State Concurrency.t nat nat := pRateLimit Concurrency.fresh.

(** Two calls; the deadline of the second fires while the first task
    runs; the first task settles and its [next()] runs. *)
Definition abandoned : list In :=
  [CallLimiter; CallLimiter; TimerFires 1; TaskSettles 0 (inl 7); RunReaction].

(** Two calls, then [cleanup()]; the first task settles and its [next()]
    runs. *)
Definition closedWhileQueued : list In :=
  [CallLimiter; CallLimiter; CallCleanup; TaskSettles 0 (inl 7); RunReaction].

(** The scenario of section 8: concurrency 1, three calls back to back, the
    tasks settle one after the other. *)
Definition threeInARow : list In :=
  [CallLimiter; CallLimiter; CallLimiter;
   TaskSettles 0 (inl 30); RunReaction;
   TaskSettles 1 (inr 10); RunReaction;
   TaskSettles 2 (inl 10); RunReaction].

End Scenario.

(** ** Facts about the log *)

Section LogFacts.
Context {V E : Type}.

Lemma drainEvent_loopEvent (e : Event V E) : drainEvent e → loopEvent e.
Proof. by destruct e. Qed.

Lemma started_app (l1 l2 : list (Event V E)) :
  started (l1 ++ l2) = started l1 ++ started l2.
Proof. apply omap_app. Qed.
Lemma settlements_app t (l1 l2 : list (Event V E)) :
  settlements t (l1 ++ l2) = settlements t l1 ++ settlements t l2.
Proof. apply omap_app. Qed.
Lemma nexts_app (l1 l2 : list (Event V E)) :
  nexts (l1 ++ l2) = nexts l1 ++ nexts l2.
Proof. apply omap_app. Qed.
Lemma count_app f (l1 l2 : list (Event V E)) :
  count f (l1 ++ l2) = count f l1 + count f l2.
Proof. unfold count. by rewrite filter_app, length_app. Qed.

Lemma settlements_loop t (l : list (Event V E)) :
  Forall loopEvent l → settlements t l = [].
Proof.
  induction 1 as [|e l He _ IH]; [done|].
  destruct e; try done; simpl in *; exact IH.
Qed.
Lemma nexts_loop (l : list (Event V E)) : Forall loopEvent l → nexts l = [].
Proof.
  induction 1 as [|e l He _ IH]; [done|].
  destruct e; try done; simpl in *; exact IH.
Qed.
Lemma count_single f (e : Event V E) : count f [e] = if f e then 1 else 0.
Proof. unfold count. rewrite filter_cons. by destruct (f e). Qed.

Lemma count_none (P : Event V E → Prop) f l :
  (∀ e, P e → f e = false) → Forall P l → count f l = 0.
Proof.
  intros Hf. induction 1 as [|e l He _ IH]; [done|].
  unfold count in *. rewrite filter_cons.
  rewrite (Hf e He). by destruct (decide (false = true)).
Qed.

Lemma count_loop f (l : list (Event V E)) :
  (∀ e, loopEvent e → f e = false) → Forall loopEvent l → count f l = 0.
Proof. apply count_none. Qed.

End LogFacts.

(** ** Tactics *)

Arguments timerOf {V E} cs t : simpl never.

(** [log_simpl] reads [started], [settlements] and [nexts] through the
    events a step has added to the log; [inv_trivial] closes the fields of
    the invariant that a step leaves as they were. *)
Ltac read_timerId := unfold call_timerId in *; simpl in *.

Tactic Notation "log_simpl" "in" "*" :=
  simpl in *; rewrite ?started_app, ?settlements_app, ?nexts_app in *; simpl in *;
  rewrite ?app_nil_r in *.

Tactic Notation "log_simpl" :=
  simpl; rewrite ?started_app, ?settlements_app, ?nexts_app; simpl;
  rewrite ?app_nil_r.

Tactic Notation "log_simpl" "in" hyp(H) :=
  simpl in H; rewrite ?started_app, ?settlements_app, ?nexts_app in H; simpl in H;
  rewrite ?app_nil_r in H.

Ltac inv_trivial :=
  try (intros; log_simpl in *; read_timerId; eauto; fail).

(** ** What [run] and the loop of [next] leave alone *)

Section Frame.
Context {M V E : Type}.
Variable qm : QuotaManager M.

Lemma loopFrame_refl (s : State M V E) : loopFrame s s.
Proof.
  repeat split. exists []. by rewrite app_nil_r.
Qed.

Lemma loopFrame_trans (s1 s2 s3 : State M V E) :
  loopFrame s1 s2 → loopFrame s2 s3 → loopFrame s1 s3.
Proof.
  intros (a1 & b1 & c1 & d1 & l1 & e1 & f1) (a2 & b2 & c2 & d2 & l2 & e2 & f2).
  repeat split; try congruence.
  exists (l1 ++ l2). split; [|by apply Forall_app].
  by rewrite e2, e1, app_assoc.
Qed.

Lemma run_queue t (s : State M V E) : queue (run qm t s) = queue s.
Proof.
  unfold run. destruct (decide _); [done|].
  by destruct (call_timerId t s).
Qed.

Lemma run_quotaManager t (s : State M V E) : quotaManager (run qm t s) = quotaManager s.
Proof.
  unfold run. destruct (decide _); [done|].
  by destruct (call_timerId t s).
Qed.

Lemma run_frame t (s : State M V E) : loopFrame s (run qm t s).
Proof.
  unfold run. destruct (decide _) as [Hz|Hz].
  - repeat split. exists [EFactory t]. split; [done|]. by repeat constructor.
  - destruct (call_timerId t s) as [h|]; [|apply loopFrame_refl].
    repeat split. exists [EClearTimeout h; EFactory t]. split.
    + simpl. by rewrite <- app_assoc.
    + by repeat constructor.
Qed.

(** The loop keeps whatever its two kinds of turn keep: a turn that shifts
    the head of the queue and runs it, and the last call of [start()],
    which returned false. *)
Lemma drain_inv (P : State M V E → Prop) :
  (∀ s t q' m, P s → queue s = t :: q' → isClosed s = false →
     start qm (quotaManager s) = (true, m) →
     P (run qm t (set_queue q' (emit (EStart true) (set_quotaManager m s))))) →
  (∀ s m, P s → isClosed s = false → start qm (quotaManager s) = (false, m) →
     P (emit (EStart false) (set_quotaManager m s))) →
  ∀ s, P s → P (drain qm (queue s) s).
Proof.
  intros Hrun Hstop.
  enough (∀ q s, queue s = q → P s → P (drain qm q s)) by eauto.
  induction q as [|t q' IH]; intros s Hq Hs; simpl; [done|].
  destruct (isClosed s) eqn:Hc; [done|].
  destruct (start qm (quotaManager s)) as [[|] m] eqn:Hst.
  - apply IH; [by rewrite run_queue|]. by apply Hrun.
  - by apply Hstop.
Qed.

Lemma drain_frame (s : State M V E) : loopFrame s (drain qm (queue s) s).
Proof.
  apply (drain_inv (loopFrame s)); [| |apply loopFrame_refl].
  - intros s1 t q' m H1 _ _ _. eapply loopFrame_trans; [exact H1|].
    eapply loopFrame_trans; [|apply run_frame].
    repeat split. exists [EStart true]. split; [done|]. by repeat constructor.
  - intros s1 m H1 _ _. eapply loopFrame_trans; [exact H1|].
    repeat split. exists [EStart false]. split; [done|]. by repeat constructor.
Qed.

(** [next] adds its own call, then what the loop adds, then the poll timer
    if it arms one. *)
Lemma next_frame c (s : State M V E) :
  isClosed (next qm c s) = isClosed s ∧ calls (next qm c s) = calls s
  ∧ reactions (next qm c s) = reactions s
  ∧ ∃ l, log (next qm c s) = log s ++ ENext c :: l ∧ Forall loopEvent l.
Proof.
  unfold next.
  destruct (drain_frame (emit (ENext c) s)) as (a & b & d & _ & l & e & f).
  simpl in *.
  destruct (shouldArm _ _).
  - unfold arm; simpl. repeat split; try done.
    exists (l ++ [ESetTimeout (nextTimer (drain qm (queue s) (emit (ENext c) s)))
                    FallbackPoll 100]).
    split.
    + rewrite e. by rewrite <- !app_assoc.
    + apply Forall_app. split; [|by repeat constructor].
      eapply Forall_impl; [exact f|]. apply drainEvent_loopEvent.
  - repeat split; try done. exists l. split.
    + rewrite e. by rewrite <- app_assoc.
    + eapply Forall_impl; [exact f|]. apply drainEvent_loopEvent.
Qed.

End Frame.

(** ** The invariant of the limiter *)

Section Invariant.
Context {M V E : Type}.
Variable qm : QuotaManager M.

(** A call in the queue has not started, and is in the queue once. *)
Lemma queued_not_started (s : State M V E) t :
  Inv qm s → t ∈ queue s → t ∉ started (log s).
Proof.
  intros HI Hq Hs.
  pose proof (StronglySorted_app_1_elem_of _ _ _ _ _ (inv_fifo _ _ HI) Hs Hq).
  lia.
Qed.

Lemma queue_head_once (s : State M V E) t q' :
  Inv qm s → queue s = t :: q' → t ∉ q'.
Proof.
  intros HI Hq Ht. pose proof (inv_fifo _ _ HI) as HS. rewrite Hq in HS.
  apply StronglySorted_app_1_r, StronglySorted_cons in HS as [HS _].
  rewrite Forall_forall in HS. specialize (HS _ Ht). lia.
Qed.

(** The invariant reads the log through [started], [settlements] and
    [nexts] only, and does not read [isClosed] and the manager. *)
Lemma Inv_ext (s s' : State M V E) :
  Inv qm s →
  queue s' = queue s → timerId s' = timerId s → calls s' = calls s →
  timers s' = timers s → nextTimer s' = nextTimer s →
  running s' = running s → reactions s' = reactions s →
  started (log s') = started (log s) →
  (∀ t, settlements t (log s') = settlements t (log s)) →
  nexts (log s') = nexts (log s) →
  Inv qm s'.
Proof.
  intros [] Hq Ht Hc Hm Hn Hr Hx Hs Hl Hk.
  split; unfold call_timerId in *; rewrite ?Hq, ?Ht, ?Hc, ?Hm, ?Hn, ?Hr, ?Hx, ?Hs, ?Hk;
    try setoid_rewrite Hl; try done.
Qed.

Lemma Inv_init m : Inv qm (pRateLimit m : State M V E).
Proof.
  split; simpl.
  - intros h cb H. by rewrite lookup_empty in H.
  - intros h. split; intros H; [by rewrite lookup_empty in H|done].
  - intros h t H. by rewrite lookup_empty in H.
  - intros t H. by apply elem_of_nil in H.
  - constructor.
  - intros t H. by apply elem_of_nil in H.
  - intros t c H. by rewrite lookup_nil in H.
  - done.
  - intros t H. by apply elem_of_nil in H.
  - intros t [H|H]; by apply elem_of_nil in H.
  - intros t msg H. by apply elem_of_nil in H.
Qed.

End Invariant.

Section Preservation.
Context {M V E : Type}.
Variable qm : QuotaManager M.

(** The head of the queue leaves it.  If its deadline timer is pending,
    [run] clears it. *)
Lemma Inv_shift_plain (s : State M V E) t q' :
  Inv qm s → queue s = t :: q' →
  (∀ h, timers s !! h ≠ Some (Deadline t)) →
  Inv qm (set_queue q' s).
Proof.
  intros HI Hq Hno.
  destruct HI as [IH IF ID IQ IS IB IP IN IR IX IT].
  rewrite Hq in *.
  assert (Hsub : ∀ u, u ∈ q' → u ∈ t :: q') by (intros; by right).
  split; simpl; read_timerId; try done.
  - intros h u Hh. destruct (ID h u Hh) as [Hu Hcu]. split; [|done].
    apply elem_of_cons in Hu as [->|Hu]; [|done]. by destruct (Hno h).
  - intros u Hu. by apply IQ, Hsub.
  - apply StronglySorted_app in IS as (H1 & H2 & H3).
    apply StronglySorted_cons in H3 as [_ H3].
    apply StronglySorted_app. repeat split; try done.
    intros x1 x2 Hx1 Hx2. by apply H1, Hsub.
  - intros u Hu. apply IB. rewrite elem_of_app in *.
    destruct Hu; [by left|right; by apply Hsub].
Qed.

Lemma Inv_shift_clear (s : State M V E) t q' h :
  Inv qm s → queue s = t :: q' → call_timerId t s = Some h →
  Inv qm (clearTimeout h (set_queue q' s)).
Proof.
  intros HI Hq Hc.
  pose proof (queue_head_once qm s t q' HI Hq) as Htq.
  assert (Hth : timers s !! h = Some (Deadline t)).
  { destruct (inv_queue _ _ HI t) as [[_ Hm]|(_ & Hm & _)].
    - rewrite Hq; left.
    - rewrite Hc in Hm. by destruct Hm.
    - congruence. }
  destruct HI as [IH IF ID IQ IS IB IP IN IR IX IT].
  rewrite Hq in *.
  assert (Hsub : ∀ u, u ∈ q' → u ∈ t :: q') by (intros; by right).
  split; simpl; read_timerId;
    try (intros; log_simpl; eauto; fail).
  - intros h' cb Hh. apply lookup_delete_Some in Hh as [_ Hh]. eauto.
  - intros h'. rewrite lookup_delete_Some, <- IF. split; [tauto|].
    intros Hf. split; [|done]. intros ->. congruence.
  - intros h' u Hh. apply lookup_delete_Some in Hh as [Hne Hh].
    destruct (ID h' u Hh) as [Hu Hcu]. split; [|done].
    apply elem_of_cons in Hu as [->|Hu]; [congruence|done].
  - intros u Hu. log_simpl. read_timerId.
    destruct (IQ u (Hsub u Hu)) as [[Hs Hm]|H2]; [left|by right].
    split; [done|].
    destruct (timerOf (calls s) u) as [hu|] eqn:Hcu; [|done].
    destruct Hm as [Hm1 Hm2]. split; [done|].
    rewrite lookup_delete_ne; [done|]. intros ->.
    rewrite Hth in Hm2. by injection Hm2 as ->.
  - log_simpl. apply StronglySorted_app in IS as (H1 & H2 & H3).
    apply StronglySorted_cons in H3 as [_ H3].
    apply StronglySorted_app. repeat split; try done.
    intros x1 x2 Hx1 Hx2. by apply H1, Hsub.
  - intros u Hu. log_simpl in Hu. apply IB. rewrite elem_of_app in *.
    destruct Hu; [by left|right; by apply Hsub].
  - intros u Hu. log_simpl in Hu. log_simpl. eauto.
  - intros u msg Hu. log_simpl in Hu. log_simpl. eauto.
Qed.

Lemma Inv_callFactory (s : State M V E) t :
  Inv qm s →
  StronglySorted lt (started (log s) ++ t :: queue s) →
  t < length (calls s) → settlements t (log s) = [] →
  Inv qm (callFactory t s).
Proof.
  intros HI HS Hlt Hs.
  assert (Hts : t ∉ started (log s)).
  { intros Hx. pose proof (StronglySorted_app_1_elem_of _ _ _ t t HS Hx) as H.
    specialize (H ltac:(left)). lia. }
  destruct HI as [IH IF ID IQ IS IB IP IN IR IX IT].
  split; simpl; read_timerId;
    try (intros; log_simpl; eauto; fail).
  - log_simpl. by rewrite <- app_assoc.
  - intros u Hu. log_simpl in Hu. rewrite <- app_assoc in Hu. simpl in Hu.
    rewrite elem_of_app, elem_of_cons in Hu.
    destruct Hu as [Hu|[->|Hu]]; [|done|]; apply IB, elem_of_app; auto.
  - intros u Hu. log_simpl. apply elem_of_app in Hu as [Hu|Hu].
    + destruct (IR u Hu) as (a & b & c & d). repeat split; try done.
      apply elem_of_app; by left.
    + apply list_elem_of_singleton in Hu as ->.
      repeat split; [apply elem_of_app; right; left|done| |].
      * intros Hx. apply Hts, IX. by left.
      * intros Hx. apply Hts, IX. by right.
  - intros u Hu. log_simpl. apply elem_of_app; left. apply IX.
    by log_simpl in Hu.
  - intros u msg Hu. log_simpl in Hu. log_simpl.
    destruct (IT u msg Hu) as [a b]. split; [|done].
    intros Hx. apply elem_of_app in Hx as [Hx|Hx]; [done|].
    apply list_elem_of_singleton in Hx as ->.
    rewrite Hs in Hu. by apply elem_of_nil in Hu.
Qed.

Lemma Inv_run (s : State M V E) t q' :
  Inv qm s → queue s = t :: q' → Inv qm (run qm t (set_queue q' s)).
Proof.
  intros HI Hq.
  assert (Hin : t ∈ queue s) by (rewrite Hq; left).
  pose proof (inv_queue _ _ HI t Hin) as HQ.
  pose proof (inv_fifo _ _ HI) as HS. rewrite Hq in HS.
  assert (Hlt : t < length (calls s)).
  { apply (inv_bound _ _ HI), elem_of_app. by right. }
  assert (Hno : maxDelay qm = 0 ∨ call_timerId t s = None →
                ∀ h, timers s !! h ≠ Some (Deadline t)).
  { intros Hor h Hh. destruct (inv_deadline _ _ HI h t Hh) as [_ Hc].
    rewrite Hc in HQ. destruct Hor as [Hz|Hn]; [|congruence].
    destruct HQ as [[_ [Hm _]]|(Hm & _)]; done. }
  unfold run. destruct (decide (maxDelay qm = 0)) as [Hz|Hz];
    [|destruct (call_timerId t s) as [h|] eqn:Hc].
  - destruct HQ as [[Hs _]|[Hm _]]; [|done].
    apply Inv_callFactory; try done.
    apply (Inv_shift_plain _ t); auto.
  - destruct HQ as [[Hs _]|(_ & Hm & _)]; [|done].
    replace (call_timerId t (set_queue q' s)) with (Some h) by done.
    apply Inv_callFactory; try done.
    + by apply (Inv_shift_clear _ t).
    + simpl. by log_simpl.
    + simpl. by log_simpl.
  - replace (call_timerId t (set_queue q' s)) with (@None nat) by done.
    apply (Inv_shift_plain _ t); auto.
Qed.

Lemma Inv_emit (s : State M V E) e :
  Inv qm s → started [e] = [] → (∀ t, settlements t [e] = []) →
  nexts [e] = [] → Inv qm (emit e s).
Proof.
  intros HI H1 H2 H3. apply (Inv_ext qm s); try done; simpl.
  - by rewrite started_app, H1, app_nil_r.
  - intros t. by rewrite settlements_app, H2, app_nil_r.
  - by rewrite nexts_app, H3, app_nil_r.
Qed.

Lemma Inv_set_quotaManager (s : State M V E) m :
  Inv qm s → Inv qm (set_quotaManager m s).
Proof. intros HI. by apply (Inv_ext qm s). Qed.

Lemma Inv_drain (s : State M V E) : Inv qm s → Inv qm (drain qm (queue s) s).
Proof.
  apply drain_inv.
  - intros s1 t q' m HI Hq _ _. apply Inv_run; [|done].
    apply Inv_emit; [by apply Inv_set_quotaManager|done..].
  - intros s1 m HI _ _. apply Inv_emit; [by apply Inv_set_quotaManager|done..].
Qed.

Lemma Inv_arm (s : State M V E) : Inv qm s → timerId s = None → Inv qm (arm s).
Proof.
  intros HI Hn.
  destruct HI as [IH IF ID IQ IS IB IP IN IR IX IT].
  assert (Hfresh : timers s !! nextTimer s = None).
  { destruct (timers s !! nextTimer s) as [cb|] eqn:Hl; [|done].
    apply IH in Hl. lia. }
  unfold arm. split; simpl; try (intros; log_simpl in *; read_timerId; eauto; fail).

  - intros h cb Hh. apply lookup_insert_Some in Hh as [[<- _]|[_ Hh]]; [lia|].
    apply IH in Hh. lia.
  - intros h. rewrite lookup_insert_Some. split.
    + intros [[-> _]|[_ Hh]]; [done|]. apply IF in Hh. congruence.
    + intros [= ->]. by left.
  - intros h t Hh. apply lookup_insert_Some in Hh as [[_ ?]|[_ Hh]]; [done|].
    by apply ID.
  - intros t Ht. log_simpl. read_timerId.
    destruct (IQ t Ht) as [[Hs Hm]|H2]; [left|by right]. split; [done|].
    destruct (timerOf (calls s) t) as [h|]; [|done].
    destruct Hm as [Hm1 Hm2]. split; [done|].
    rewrite lookup_insert_ne; [done|]. intros <-. congruence.
Qed.

Lemma Inv_emit_next (s : State M V E) c :
  Inv qm s →
  (∀ t, c = FromSettled t → (t ∉ running s) ∧ t ∈ started (log s)) →
  Inv qm (emit (ENext c) s).
Proof.
  intros HI Hc.
  destruct HI as [IH IF ID IQ IS IB IP IN IR IX IT].
  split; simpl; try (intros; log_simpl in *; read_timerId; eauto; fail).

  - intros t Ht. log_simpl. destruct (IR t Ht) as (a & b & d & e).
    repeat split; try done. intros Hx.
    apply elem_of_app in Hx as [Hx|Hx]; [done|].
    apply list_elem_of_singleton in Hx. symmetry in Hx.
    by destruct (Hc t Hx).
  - intros t [Ht|Ht]; log_simpl; [by apply IX; left|].
    log_simpl in Ht. apply elem_of_app in Ht as [Ht|Ht]; [by apply IX; right|].
    apply list_elem_of_singleton in Ht. symmetry in Ht.
    by destruct (Hc t Ht).
Qed.

Lemma shouldArm_timerId (s : State M V E) :
  shouldArm qm s = true → timerId s = None.
Proof.
  unfold shouldArm. intros H.
  apply andb_prop in H as [_ H]. by apply bool_decide_eq_true in H.
Qed.

Lemma Inv_next (s : State M V E) c :
  Inv qm s →
  (∀ t, c = FromSettled t → (t ∉ running s) ∧ t ∈ started (log s)) →
  Inv qm (next qm c s).
Proof.
  intros HI Hc. unfold next.
  pose proof (Inv_drain _ (Inv_emit_next s c HI Hc)) as HD. simpl in HD.
  destruct (shouldArm _ _) eqn:Ha; [|done].
  apply Inv_arm; [done|]. by apply shouldArm_timerId.
Qed.

Lemma timerOf_settle (cs : list (Call.t V E)) u t o :
  timerOf (alter (settle o) t cs) u = timerOf cs u.
Proof.
  unfold timerOf. rewrite list_lookup_alter.
  destruct (decide (t = u)) as [->|]; [|done].
  destruct (cs !! u) as [c|]; [|done]. simpl.
  unfold settle. by destruct (Call.promise c).
Qed.

Lemma timerOf_set_ne (cs : list (Call.t V E)) u t o :
  u ≠ t → timerOf (alter (λ c, Call.mk o (Call.promise c)) t cs) u = timerOf cs u.
Proof. intros Hne. unfold timerOf. by rewrite list_lookup_alter_ne. Qed.

Lemma timerOf_set_eq (cs : list (Call.t V E)) t o :
  t < length cs → timerOf (alter (λ c, Call.mk o (Call.promise c)) t cs) t = o.
Proof.
  intros Hlt. unfold timerOf. rewrite list_lookup_alter_eq.
  destruct (lookup_lt_is_Some_2 _ _ Hlt) as [c Hc]. by rewrite Hc.
Qed.

Lemma timerOf_push (cs : list (Call.t V E)) u c :
  u < length cs → timerOf (cs ++ [c]) u = timerOf cs u.
Proof. intros Hlt. unfold timerOf. by rewrite lookup_app_l. Qed.

Lemma timerOf_push_new (cs : list (Call.t V E)) c :
  timerOf (cs ++ [c]) (length cs) = Call.timerId c.
Proof. unfold timerOf. by rewrite list_lookup_middle. Qed.

Lemma settlements_reject (l : list (Event V E)) u t r :
  settlements u (l ++ [EReject t r])
  = settlements u l ++ (if decide (t = u) then [Rejected r] else []).
Proof. rewrite settlements_app. simpl. by destruct (decide (t = u)). Qed.

Lemma settlements_resolve (l : list (Event V E)) u t v :
  settlements u (l ++ [EResolve t v])
  = settlements u l ++ (if decide (t = u) then [Fulfilled v] else []).
Proof. rewrite settlements_app. simpl. by destruct (decide (t = u)). Qed.

(** A promise that nothing settled yet takes what [resolve] or [reject]
    is called with. *)
Lemma promise_settle (s : State M V E) t u o c :
  (∀ c, calls s !! u = Some c → Call.promise c = head (settlements u (log s))) →
  alter (settle o) t (calls s) !! u = Some c →
  (t = u → settlements u (log s) = []) →
  Call.promise c
  = head (settlements u (log s) ++ (if decide (t = u) then [o] else [])).
Proof.
  intros IP Hc Hs. rewrite list_lookup_alter in Hc.
  destruct (decide (t = u)) as [->|].
  - destruct (calls s !! u) as [c0|] eqn:H0; [|done].
    injection Hc as <-. specialize (IP c0 eq_refl).
    rewrite Hs in * by done. simpl in *. unfold settle. by rewrite IP.
  - rewrite app_nil_r. by apply IP.
Qed.

Lemma settlements_settleEvent (l : list (Event V E)) u t o :
  settlements u (l ++ [settleEvent t o])
  = settlements u l ++ (if decide (t = u) then [o] else []).
Proof. destruct o; [apply settlements_resolve|apply settlements_reject]. Qed.

(** [limiter] builds the closure of a new call. *)
Lemma Inv_push_call (s : State M V E) :
  Inv qm s → Inv qm (set_calls (calls s ++ [Call.mk None None]) s).
Proof.
  intros HI.
  destruct HI as [IH IF ID IQ IS IB IP IN IR IX IT].
  assert (Hq : ∀ u, u ∈ queue s → u < length (calls s)).
  { intros u Hu. apply IB, elem_of_app. by right. }
  split; simpl; inv_trivial.
  - intros h u Hh. destruct (ID h u Hh) as [Hu Hc]. split; [done|].
    unfold call_timerId in *; simpl. rewrite timerOf_push; auto.
  - intros u Hu. unfold call_timerId in *; simpl.
    rewrite timerOf_push by auto. by apply IQ.
  - intros u Hu. rewrite length_app; simpl. specialize (IB u Hu). lia.
  - intros u c Hc. apply lookup_app_Some in Hc as [Hc|[Hge Hc]]; [by apply IP|].
    rewrite IN by done. apply list_lookup_singleton_Some in Hc as [_ <-]. done.
  - intros u Hu. rewrite length_app in Hu; simpl in Hu. apply IN. lia.
  - intros u msg Hu. destruct (IT u msg Hu) as (a & b & c).
    repeat split; try done. unfold call_timerId in *; simpl.
    rewrite timerOf_push; [done|].
    destruct (decide (u < length (calls s))) as [|Hge]; [done|].
    rewrite IN in Hu by lia. by apply elem_of_nil in Hu.
Qed.

(** [resolve] or [reject] of a call that is not in the queue, with
    anything but the timeout of the deadline. *)
Lemma Inv_settle (s : State M V E) t o :
  Inv qm s → t ∉ queue s → t ∉ running s → t < length (calls s) →
  settlements t (log s) = [] →
  (∀ msg, o ≠ Rejected (RateLimitTimeoutError msg)) →
  Inv qm (emit (settleEvent t o)
            (set_calls (alter (settle o) t (calls s)) s)).
Proof.
  intros HI Hnq Hnr Hlt Hs Ho.
  destruct HI as [IH IF ID IQ IS IB IP IN IR IX IT].
  assert (Hst : started (log s ++ [settleEvent t o]) = started (log s)).
  { rewrite started_app. destruct o; simpl; by rewrite app_nil_r. }
  assert (Hnx : nexts (log s ++ [settleEvent t o]) = nexts (log s)).
  { rewrite nexts_app. destruct o; simpl; by rewrite app_nil_r. }
  assert (Hse : ∀ u, u ≠ t →
    settlements u (log s ++ [settleEvent t o]) = settlements u (log s)).
  { intros u Hu. rewrite settlements_settleEvent.
    destruct (decide (t = u)); [congruence|by rewrite app_nil_r]. }
  split; simpl; rewrite ?Hst, ?Hnx; try done.
  - intros h u Hh. destruct (ID h u Hh) as [Hu Hc]. split; [done|].
    unfold call_timerId in *; simpl. by rewrite timerOf_settle.
  - intros u Hu. unfold call_timerId in *; simpl.
    rewrite timerOf_settle, Hse; [by apply IQ|]. by intros ->.
  - intros u Hu. rewrite length_alter. by apply IB.
  - intros u c Hc. rewrite settlements_settleEvent.
    apply (promise_settle s t u o c); [by apply IP|done|]. by intros ->.
  - intros u Hu. rewrite length_alter in Hu. rewrite Hse; [by apply IN|lia].
  - intros u Hu. rewrite Hse; [by apply IR|]. by intros ->.
  - intros u msg Hu. destruct (decide (u = t)) as [->|Hne].
    + rewrite settlements_settleEvent, Hs in Hu.
      destruct (decide (t = t)); [|done]. simpl in Hu.
      apply list_elem_of_singleton in Hu. by destruct (Ho msg).
    + rewrite Hse in * by done. destruct (IT u msg Hu) as (a & b & c).
      repeat split; try done. unfold call_timerId in *; simpl.
      by rewrite timerOf_settle.
Qed.

Lemma Inv_limiter_closed (s : State M V E) :
  Inv qm s →
  Inv qm (reject (length (calls s)) (AlreadyClosedError closedMessage)
            (set_calls (calls s ++ [Call.mk None None]) s)).
Proof.
  intros HI.
  assert (Hnew : ∀ l : list nat, (∀ u, u ∈ l → u < length (calls s)) →
                 length (calls s) ∉ l).
  { intros l Hl Hx. specialize (Hl _ Hx). lia. }
  apply (Inv_settle _ _ (Rejected (AlreadyClosedError closedMessage)));
    simpl; [by apply Inv_push_call| | | | |done].
  - apply Hnew. intros u Hu. apply (inv_bound _ _ HI), elem_of_app. by right.
  - apply Hnew. intros u Hu. apply (inv_bound _ _ HI), elem_of_app. left.
    by apply (inv_running _ _ HI).
  - rewrite length_app; simpl; lia.
  - by apply (inv_fresh _ _ HI).
Qed.

Lemma Inv_enqueue (s : State M V E) t :
  Inv qm s → t < length (calls s) →
  (∀ u, u ∈ started (log s) ++ queue s → u < t) →
  settlements t (log s) = [] → call_timerId t s = None →
  Inv qm (set_queue (queue (armDeadline qm t s) ++ [t]) (armDeadline qm t s)).
Proof.
  intros HI Hlt Hmax Hs Hc.
  destruct HI as [IH IF ID IQ IS IB IP IN IR IX IT].
  assert (Hsort : StronglySorted lt (started (log s) ++ queue s ++ [t])).
  { rewrite app_assoc. apply StronglySorted_app. repeat split; [|done|].
    - intros x1 x2 Hx1 Hx2. apply list_elem_of_singleton in Hx2 as ->. auto.
    - repeat constructor. }
  assert (Hq : ∀ u, u ∈ queue s → u ≠ t).
  { intros u Hu ->. specialize (Hmax t). rewrite elem_of_app in Hmax.
    specialize (Hmax (or_intror Hu)). lia. }
  unfold armDeadline, call_timerId in *.
  destruct (decide (maxDelay qm = 0)) as [Hz|Hz].
  - split; unfold call_timerId; simpl; inv_trivial.
    + intros h u Hh. destruct (ID h u Hh) as [Hu Hcu]. split; [|done].
      apply elem_of_app. by left.
    + intros u Hu. apply elem_of_app in Hu as [Hu|Hu]; [by apply IQ|].
      apply list_elem_of_singleton in Hu as ->. left. split; [done|].
      by rewrite Hc.
    + intros u Hu. rewrite app_assoc in Hu. apply elem_of_app in Hu as [Hu|Hu].
      * by apply IB.
      * by apply list_elem_of_singleton in Hu as ->.
  - assert (Hfresh : ∀ h cb, timers s !! h = Some cb → h ≠ nextTimer s).
    { intros h cb Hh. apply IH in Hh. lia. }
    split; unfold call_timerId; simpl; inv_trivial.
    + intros h cb Hh. apply lookup_insert_Some in Hh as [[<- _]|[_ Hh]]; [lia|].
      apply IH in Hh. lia.
    + intros h. rewrite lookup_insert_Some, <- IF. split.
      * by intros [[_ ?]|[_ ?]].
      * intros Hf. right. split; [|done]. intros <-. by apply (Hfresh _ _ Hf).
    + intros h u Hh. apply lookup_insert_Some in Hh as [[<- [= <-]]|[Hne Hh]].
      * split; [apply elem_of_app; right; left|]. by rewrite timerOf_set_eq.
      * destruct (ID h u Hh) as [Hu Hcu]. split; [apply elem_of_app; by left|].
        rewrite timerOf_set_ne; auto.
    + intros u Hu. log_simpl. apply elem_of_app in Hu as [Hu|Hu].
      * rewrite timerOf_set_ne by auto.
        destruct (IQ u Hu) as [[Hsu Hm]|H2]; [left|by right]. split; [done|].
        destruct (timerOf (calls s) u) as [hu|]; [|done].
        destruct Hm as [Hm1 Hm2]. split; [done|].
        rewrite lookup_insert_ne; [done|]. intros <-. by apply (Hfresh _ _ Hm2).
      * apply list_elem_of_singleton in Hu as ->. left. split; [done|].
        rewrite timerOf_set_eq by done. split; [done|]. apply lookup_insert_eq.
    + intros u Hu. log_simpl in Hu. rewrite length_alter.
      rewrite app_assoc in Hu. apply elem_of_app in Hu as [Hu|Hu]; [by apply IB|].
      by apply list_elem_of_singleton in Hu as ->.
    + intros u c Hcu. log_simpl. rewrite list_lookup_alter in Hcu.
      destruct (decide (t = u)) as [->|]; [|by apply IP].
      destruct (calls s !! u) as [c0|] eqn:H0; [|done].
      injection Hcu as <-. simpl. by apply IP.
    + intros u Hu. log_simpl. rewrite length_alter in Hu. by apply IN.
    + intros u msg Hu. log_simpl in Hu. log_simpl.
      destruct (IT u msg Hu) as (a & b & c). repeat split; try done.
      rewrite timerOf_set_ne; [done|]. intros ->.
      rewrite Hs in Hu. by apply elem_of_nil in Hu.
Qed.

Lemma Inv_limiter (s : State M V E) : Inv qm s → Inv qm (limiter qm s).2.
Proof.
  intros HI. unfold limiter. destruct (isClosed s); simpl.
  - by apply Inv_limiter_closed.
  - apply Inv_next; [|done]. apply Inv_enqueue.
    + by apply Inv_push_call.
    + simpl. rewrite length_app. simpl. lia.
    + simpl. apply (inv_bound _ _ HI).
    + simpl. by apply (inv_fresh _ _ HI).
    + unfold call_timerId. simpl. by rewrite timerOf_push_new.
Qed.

Lemma Inv_fire_fallback (s : State M V E) h :
  Inv qm s → timers s !! h = Some FallbackPoll →
  Inv qm (set_timerId None (set_timers (delete h (timers s)) s)).
Proof.
  intros HI Hh.
  destruct HI as [IH IF ID IQ IS IB IP IN IR IX IT].
  split; unfold call_timerId; simpl; inv_trivial.
  - intros h' cb Hh'. apply lookup_delete_Some in Hh' as [_ Hh']. eauto.
  - intros h'. rewrite lookup_delete_Some, IF. apply IF in Hh. split; [|done].
    intros [Hne Hh']. congruence.
  - intros h' u Hh'. apply lookup_delete_Some in Hh' as [_ Hh']. eauto.
  - intros u Hu. destruct (IQ u Hu) as [[Hs Hm]|H2]; [left|by right].
    split; [done|]. unfold call_timerId in *.
    destruct (timerOf (calls s) u) as [hu|]; [|done].
    destruct Hm as [Hm1 Hm2]. split; [done|].
    rewrite lookup_delete_ne; [done|]. intros ->. congruence.
Qed.

Lemma Inv_fire_deadline (s : State M V E) h t :
  Inv qm s → timers s !! h = Some (Deadline t) →
  Inv qm (reject t (RateLimitTimeoutError timeoutMessage)
            (set_call_timerId t None (set_timers (delete h (timers s)) s))).
Proof.
  intros HI Hh.
  destruct (inv_deadline _ _ HI h t Hh) as [Hq Hc].
  pose proof (queued_not_started qm s t HI Hq) as Hts.
  assert (Hlt : t < length (calls s)).
  { apply (inv_bound _ _ HI), elem_of_app. by right. }
  pose proof (inv_queue _ _ HI t Hq) as HQ. rewrite Hc in HQ.
  destruct HQ as [[Hs [Hz _]]|(_ & Hn & _)]; [|done].
  destruct HI as [IH IF ID IQ IS IB IP IN IR IX IT].
  unfold call_timerId in *.
  assert (Hse : ∀ u, u ≠ t →
    settlements u (log s ++ [EReject t (RateLimitTimeoutError timeoutMessage)])
    = settlements u (log s)).
  { intros u Hu. rewrite settlements_reject.
    destruct (decide (t = u)); [congruence|by rewrite app_nil_r]. }
  split; unfold call_timerId; simpl; inv_trivial.
  - intros h' cb Hh'. apply lookup_delete_Some in Hh' as [_ Hh']. eauto.
  - intros h'. rewrite lookup_delete_Some, <- IF. split; [tauto|].
    intros Hf. split; [|done]. intros ->. congruence.
  - intros h' u Hh'. apply lookup_delete_Some in Hh' as [Hne Hh'].
    destruct (ID h' u Hh') as [Hu Hcu]. split; [done|].
    rewrite timerOf_settle, timerOf_set_ne; [done|]. intros ->. congruence.
  - intros u Hu. rewrite timerOf_settle. destruct (decide (u = t)) as [->|Hne].
    + right. split; [done|]. rewrite timerOf_set_eq by done. split; [done|].
      rewrite settlements_reject, Hs. by destruct (decide (t = t)).
    + rewrite timerOf_set_ne, Hse by done.
      destruct (IQ u Hu) as [[Hsu Hm]|H2]; [left|by right]. split; [done|].
      destruct (timerOf (calls s) u) as [hu|] eqn:Hcu; [|done].
      destruct Hm as [Hm1 Hm2]. split; [done|].
      rewrite lookup_delete_ne; [done|]. intros ->.
      rewrite Hh in Hm2. by injection Hm2 as ->.
  - intros u Hu. log_simpl in Hu. rewrite !length_alter. by apply IB.
  - intros u c Hcu. rewrite settlements_reject.
    apply (promise_settle (set_call_timerId t None s) t u _ c); simpl;
      [|exact Hcu|by intros ->].
    intros c0 Hc0. rewrite list_lookup_alter in Hc0.
    destruct (decide (t = u)) as [->|]; [|by apply IP].
    destruct (calls s !! u) as [c1|] eqn:H1; [|done].
    injection Hc0 as <-. simpl. by apply IP.
  - intros u Hu. rewrite !length_alter in Hu. rewrite Hse; [by apply IN|lia].
  - intros u Hu. destruct (IR u Hu) as (a & b & c & d).
    assert (u ≠ t) by (by intros ->). rewrite Hse by done. by log_simpl.
  - intros u msg Hu.
    replace (started (log s ++ [EReject t (RateLimitTimeoutError timeoutMessage)]))
      with (started (log s)) by (by log_simpl).
    destruct (decide (u = t)) as [->|Hne].
    + split; [done|]. rewrite settlements_reject, Hs.
      rewrite timerOf_settle, timerOf_set_eq by done.
      by destruct (decide (t = t)).
    + rewrite Hse in * by done. destruct (IT u msg Hu) as (a & b & c).
      repeat split; try done. by rewrite timerOf_settle, timerOf_set_ne.
Qed.

Lemma Inv_fire (s : State M V E) h cb :
  Inv qm s → timers s !! h = Some cb →
  Inv qm (fire qm cb (set_timers (delete h (timers s)) s)).
Proof.
  intros HI Hh. destruct cb as [|t]; simpl.
  - apply Inv_next; [|done]. by apply Inv_fire_fallback.
  - apply Inv_next; [|done]. by apply Inv_fire_deadline.
Qed.

Lemma settled_eq (s : State M V E) t o :
  settled qm t o s
  = let s1 := emit EEnd (set_quotaManager (end_ qm (quotaManager s)) s) in
    set_reactions (reactions s ++ [t])
      (emit (settleEvent t (outcome o))
         (set_calls (alter (settle (outcome o)) t (calls s)) s1)).
Proof. by destruct o. Qed.

Lemma Inv_settled (s : State M V E) t o :
  Inv qm s → t ∈ running s →
  Inv qm (settled qm t o (set_running (filter (λ u, u ≠ t) (running s)) s)).
Proof.
  intros HI Ht.
  destruct (inv_running _ _ HI t Ht) as (Hst & Hs & Hnr & Hnn).
  assert (Hnq : t ∉ queue s).
  { intros Hq. by apply (queued_not_started qm s t HI Hq). }
  assert (Hlt : t < length (calls s)).
  { apply (inv_bound _ _ HI), elem_of_app. by left. }
  set (s1 := emit EEnd (set_quotaManager (end_ qm (quotaManager s))
               (set_running (filter (λ u, u ≠ t) (running s)) s))).
  assert (H1 : Inv qm s1).
  { apply Inv_emit; [|done..]. apply Inv_set_quotaManager.
    destruct HI as [IH IF ID IQ IS IB IP IN IR IX IT].
    split; simpl; try done.
    intros u Hu. apply list_elem_of_filter in Hu as [_ Hu]. by apply IR. }
  assert (H2 : Inv qm (emit (settleEvent t (outcome o))
                         (set_calls (alter (settle (outcome o)) t (calls s1)) s1))).
  { apply Inv_settle; simpl; try done.
    - intros Hx. apply list_elem_of_filter in Hx as [Hx _]. done.
    - by log_simpl.
    - intros msg. by destruct o. }
  rewrite settled_eq.
  destruct H2 as [IH IF ID IQ IS IB IP IN IR IX IT].
  clear H1. subst s1. simpl in *. split; simpl; try done.
  - intros u Hu. destruct (IR u Hu) as (a & b & c & d).
    repeat split; try done. intros Hx. apply elem_of_app in Hx as [Hx|Hx]; [done|].
    apply list_elem_of_singleton in Hx as ->. simpl in Hu.
    apply list_elem_of_filter in Hu as [Hu _]. done.
  - intros u [Hu|Hu]; [|apply IX; by right].
    apply elem_of_app in Hu as [Hu|Hu]; [apply IX; by left|].
    apply list_elem_of_singleton in Hu as ->.
    rewrite started_app. apply elem_of_app. left. by log_simpl.
Qed.

Lemma Inv_step (s : State M V E) i : Inv qm s → Inv qm (step qm i s).
Proof.
  intros HI. destruct i as [| |h|t o|]; simpl.
  - by apply Inv_limiter.
  - unfold cleanupFn. destruct (isClosed s); [done|].
    apply (Inv_ext qm (emit EClose (set_quotaManager (close qm (quotaManager s)) s)));
      try done.
    apply Inv_emit; [by apply Inv_set_quotaManager|done..].
  - destruct (reactions s); [|done].
    destruct (timers s !! h) as [cb|] eqn:Hh; [|done]. by apply Inv_fire.
  - destruct (decide (t ∈ running s)); [|done]. by apply Inv_settled.
  - destruct (reactions s) as [|t rest] eqn:Hr; [done|].
    assert (Ht : t ∈ reactions s) by (rewrite Hr; left).
    apply Inv_next.
    + destruct HI as [IH IF ID IQ IS IB IP IN IR IX IT].
      split; simpl; try done.
      * intros u Hu. destruct (IR u Hu) as (a & b & c & d).
        repeat split; try done. intros Hx. apply c. rewrite Hr. by right.
      * intros u [Hu|Hu]; apply IX; [left|by right]. rewrite Hr. by right.
    + intros u [= <-]. simpl. split.
      * intros Hx. by destruct (inv_running _ _ HI t Hx) as (_ & _ & c & _).
      * apply (inv_reacted _ _ HI). by left.
Qed.

Lemma Inv_exec (s : State M V E) ins : Inv qm s → Inv qm (exec qm ins s).
Proof.
  revert s. induction ins as [|i ins IH]; intros s HI; [done|].
  simpl. by apply IH, Inv_step.
Qed.

(** The invariant holds in every state the limiter can be in. *)
Lemma Inv_reachable m (ins : list (Input V E)) :
  Inv qm (exec qm ins (pRateLimit m)).
Proof. apply Inv_exec, Inv_init. Qed.

(** ** Facts about closing, the log and the queue *)

Lemma elem_of_started (l : list (Event V E)) t :
  t ∈ started l ↔ EFactory t ∈ l.
Proof.
  unfold started. rewrite list_elem_of_omap. split.
  - intros (e & He & Hf). destruct e; try done. by injection Hf as ->.
  - intros H. by exists (EFactory t).
Qed.

Lemma elem_of_settlements (l : list (Event V E)) t o :
  o ∈ settlements t l ↔ settleEvent t o ∈ l.
Proof.
  unfold settlements. rewrite list_elem_of_omap. split.
  - intros (e & He & Hf). destruct e; try done;
      destruct (decide _) as [->|]; try done; by injection Hf as <-.
  - intros H. exists (settleEvent t o). split; [done|].
    destruct o; simpl; by destruct (decide (t = t)).
Qed.

Lemma exec_app (s : State M V E) a b :
  exec qm (a ++ b) s = exec qm b (exec qm a s).
Proof. apply foldl_app. Qed.

Lemma drain_closed (s : State M V E) q : isClosed s = true → drain qm q s = s.
Proof. intros Hc. destruct q; simpl; [done|]. by rewrite Hc. Qed.

(** What [next] does once the limiter is closed: no turn of the loop. *)
Lemma next_closed (s : State M V E) c :
  isClosed s = true →
  next qm c s = if shouldArm qm (emit (ENext c) s)
                then arm (emit (ENext c) s) else emit (ENext c) s.
Proof. intros Hc. unfold next. by rewrite drain_closed. Qed.

Lemma next_closed_queue (s : State M V E) c :
  isClosed s = true → queue (next qm c s) = queue s.
Proof. intros Hc. rewrite next_closed by done. by destruct (shouldArm _ _). Qed.

Lemma next_isClosed (s : State M V E) c :
  isClosed (next qm c s) = isClosed s.
Proof. by destruct (next_frame qm c s) as (a & _). Qed.

Lemma step_closed (s : State M V E) i :
  isClosed s = true →
  isClosed (step qm i s) = true ∧ queue (step qm i s) = queue s.
Proof.
  intros Hc. destruct i as [| |h|t o|]; simpl.
  - unfold limiter. by rewrite Hc.
  - unfold cleanupFn. by rewrite Hc.
  - destruct (reactions s); [|done]. destruct (timers s !! h) as [[|t]|]; [| |done].
    + simpl. by rewrite next_isClosed, next_closed_queue.
    + simpl. by rewrite next_isClosed, next_closed_queue.
  - destruct (decide _); [|done]. by destruct o.
  - destruct (reactions s) as [|t rest]; [done|].
    by rewrite next_isClosed, next_closed_queue.
Qed.

Lemma exec_closed (s : State M V E) ins :
  isClosed s = true →
  isClosed (exec qm ins s) = true ∧ queue (exec qm ins s) = queue s.
Proof.
  revert s. induction ins as [|i ins IH]; intros s Hc; [done|]. simpl.
  destruct (step_closed s i Hc) as [H1 H2].
  destruct (IH _ H1) as [H3 H4]. split; [done|]. by rewrite H4.
Qed.

(** The log grows. *)
Lemma next_log (s : State M V E) c :
  ∃ l, log (next qm c s) = log s ++ l.
Proof. destruct (next_frame qm c s) as (_ & _ & _ & l & e & _). eauto. Qed.

Lemma step_log (s : State M V E) i : ∃ l, log (step qm i s) = log s ++ l.
Proof.
  assert (Hn : ∀ c (x : State M V E) l0, log x = log s ++ l0 →
    ∃ l, log (next qm c x) = log s ++ l).
  { intros c x l0 H0. destruct (next_log x c) as [l Hl].
    exists (l0 ++ l). by rewrite Hl, H0, app_assoc. }
  assert (H0 : ∃ l, log s = log s ++ l) by (exists []; by rewrite app_nil_r).
  destruct i as [| |h|t o|]; simpl.
  - unfold limiter. destruct (isClosed s); simpl; [eauto|].
    apply (Hn _ _ (if decide (maxDelay qm = 0) then []
                   else [ESetTimeout (nextTimer s) (Deadline (length (calls s)))
                           (maxDelay qm)])).
    unfold armDeadline. destruct (decide _); simpl; [by rewrite app_nil_r|done].
  - unfold cleanupFn. destruct (isClosed s); simpl; eauto.
  - destruct (reactions s); [|done]. destruct (timers s !! h) as [[|t]|]; [| |done].
    + apply (Hn _ _ []). simpl. by rewrite app_nil_r.
    + by apply (Hn _ _ [EReject t (RateLimitTimeoutError timeoutMessage)]).
  - destruct (decide _); [|done]. rewrite settled_eq. simpl.
    rewrite <- app_assoc. eauto.
  - destruct (reactions s) as [|t rest]; [done|].
    apply (Hn _ _ []). simpl. by rewrite app_nil_r.
Qed.

Lemma exec_log (s : State M V E) ins : ∃ l, log (exec qm ins s) = log s ++ l.
Proof.
  revert s. induction ins as [|i ins IH]; intros s; simpl.
  - exists []. by rewrite app_nil_r.
  - destruct (step_log s i) as [l1 H1]. destruct (IH (step qm i s)) as [l2 H2].
    exists (l1 ++ l2). by rewrite H2, H1, app_assoc.
Qed.

Lemma exec_log_elem (s : State M V E) ins e :
  e ∈ log s → e ∈ log (exec qm ins s).
Proof.
  intros He. destruct (exec_log s ins) as [l ->]. apply elem_of_app. by left.
Qed.

(** Counting the calls of one kind that [next] does not make. *)
Lemma next_count (f : Event V E → bool) (s : State M V E) c :
  f (ENext c) = false → (∀ e, loopEvent e → f e = false) →
  count f (log (next qm c s)) = count f (log s).
Proof.
  intros H1 H2. destruct (next_frame qm c s) as (_ & _ & _ & l & e & Hl).
  rewrite e, count_app. change (ENext c :: l) with ([ENext c] ++ l).
  rewrite count_app, (count_loop f l H2 Hl).
  unfold count. simpl. rewrite filter_cons, H1. simpl. lia.
Qed.

Lemma step_close_count (s : State M V E) i :
  isCleanup i = false →
  isClosed (step qm i s) = isClosed s
  ∧ count isClose (log (step qm i s)) = count isClose (log s).
Proof.
  assert (Hl : ∀ e : Event V E, loopEvent e → isClose e = false) by (by intros []).
  intros Hi. destruct i as [| |h|t o|]; simpl; try done.
  - unfold limiter. destruct (isClosed s) eqn:Hc; simpl.
    + split; [done|]. rewrite count_app. unfold count. simpl. lia.
    + rewrite next_isClosed, next_count by done. simpl.
      unfold armDeadline. destruct (decide _); simpl; [done|].
      split; [done|]. rewrite count_app. unfold count. simpl. lia.
  - destruct (reactions s); [|done]. destruct (timers s !! h) as [[|t]|]; [| |done].
    + simpl. by rewrite next_isClosed, next_count.
    + simpl. rewrite next_isClosed, next_count by done. simpl.
      split; [done|]. rewrite count_app. unfold count. simpl. lia.
  - destruct (decide _); [|done]. rewrite settled_eq. simpl.
    split; [done|]. rewrite !count_app. unfold count. destruct o; simpl; lia.
  - destruct (reactions s) as [|t rest]; [done|].
    by rewrite next_isClosed, next_count.
Qed.

End Preservation.

Section Claims.
Context {M V E : Type}.
Variable qm : QuotaManager M.

(** C5: [cleanup()] is idempotent.  However the calls of [cleanup] are
    mixed with the other inputs, the manager's [close()] is called once if
    [cleanup] was called at all, and never otherwise; a call of [cleanup]
    after the first one changes nothing, and [cleanupFn] has no case in
    which it fails. *)
Theorem cleanup_calls_close_once (m : M) (ins : list (Input V E))
    (s : State M V E) (n : nat) :
  count isClose (log (exec qm ins (pRateLimit m)))
    = (if existsb isCleanup ins then 1 else 0)
  ∧ isClosed (cleanupFn qm s) = true
  ∧ Nat.iter n (cleanupFn qm) (cleanupFn qm s) = cleanupFn qm s
  ∧ count isClose (log (Nat.iter (S n) (cleanupFn qm) (set_isClosed false s)))
    = S (count isClose (log s)).
Proof.
  assert (Hidem : ∀ x : State M V E, isClosed x = true → cleanupFn qm x = x).
  { intros x Hx. unfold cleanupFn. by rewrite Hx. }
  assert (Hcl : ∀ x : State M V E, isClosed (cleanupFn qm x) = true).
  { intros x. unfold cleanupFn. by destruct (isClosed x) eqn:Hx. }
  assert (Hiter : ∀ k (x : State M V E),
            Nat.iter k (cleanupFn qm) (cleanupFn qm x) = cleanupFn qm x).
  { induction k as [|k IH]; intros x; [done|]. simpl. rewrite IH. by apply Hidem. }
  split; [|split; [done|split; [done|]]].
  - enough (Hgen : ∀ (l : list (Input V E)) (x : State M V E),
      isClosed (exec qm l x) = isClosed x || existsb isCleanup l
      ∧ count isClose (log (exec qm l x))
        = count isClose (log x)
          + (if isClosed x then 0 else if existsb isCleanup l then 1 else 0)).
    { by destruct (Hgen ins (pRateLimit m)) as [_ ->]. }
    induction l as [|i l IH]; intros x; simpl.
    + rewrite orb_false_r. split; [done|]. destruct (isClosed x); lia.
    + destruct (IH (step qm i x)) as [H1 H2]. rewrite H1, H2. clear H1 H2 IH.
      destruct (isCleanup i) eqn:Hi.
      * destruct i; try done. simpl. unfold cleanupFn.
        destruct (isClosed x) eqn:Hx; simpl; [by rewrite Hx|].
        split; [done|].
        rewrite count_app. unfold count. simpl. lia.
      * destruct (step_close_count qm x i Hi) as [-> ->]. done.
  - rewrite Nat.iter_succ_r, Hiter. unfold cleanupFn. simpl.
    rewrite count_app. unfold count. simpl. lia.
Qed.

(** C4: once [cleanup()] has been called, whatever happens next, a call
    of [limiter] returns a promise that is rejected at once with the
    [AlreadyClosedError]; nothing joins the queue, [start()] is not called
    and the manager is left as it was. *)
Theorem limiter_after_cleanup_rejects (s0 : State M V E)
    (ins : list (Input V E)) :
  let s := exec qm ins (cleanupFn qm s0) in
  let t := (limiter qm s).1 in
  let s' := (limiter qm s).2 in
  promise t s' = Some (Some (Rejected (AlreadyClosedError closedMessage)))
  ∧ log s' = log s ++ [EReject t (AlreadyClosedError closedMessage)]
  ∧ queue s' = queue s
  ∧ quotaManager s' = quotaManager s
  ∧ running s' = running s
  ∧ timers s' = timers s
  ∧ isClosed s' = true.
Proof.
  intros s t s'.
  assert (Hc : isClosed s = true).
  { apply exec_closed. unfold cleanupFn. by destruct (isClosed s0) eqn:H0. }
  subst t s'. unfold limiter. rewrite Hc. simpl. repeat split; try done.
  unfold promise. simpl. rewrite list_lookup_alter_eq, list_lookup_middle by done.
  done.
Qed.
(** The promise of a call that nothing settled is pending, and the promise
    of a call whose deadline fired is rejected with the timeout. *)
Lemma promise_of_settlements (s : State M V E) t :
  Inv qm s → t < length (calls s) →
  promise t s = Some (head (settlements t (log s))).
Proof.
  intros HI Hlt. unfold promise.
  destruct (lookup_lt_is_Some_2 _ _ Hlt) as [c Hc]. rewrite Hc. simpl.
  by rewrite (inv_promise _ _ HI t c Hc).
Qed.

(** C9: closing settles nothing that is queued.  In a closed limiter whose
    manager has no [maxDelay], a call that is in the queue stays in the
    queue whatever happens next: the queue is never shifted again, the
    task factory of the call is never called, and its promise stays
    pending. *)
Theorem closed_queue_entry_stays_pending (m : M) (pre post : list (Input V E))
    (t : nat) :
  let s := exec qm pre (pRateLimit m) in
  let s' := exec qm post s in
  maxDelay qm = 0 → isClosed s = true → t ∈ queue s →
  queue s' = queue s
  ∧ (EFactory t ∉ log s')
  ∧ (∀ o, settleEvent t o ∉ log s')
  ∧ promise t s' = Some None.
Proof.
  intros s s' Hz Hc Ht.
  destruct (exec_closed qm s post Hc) as [_ Hq]. fold s' in Hq.
  assert (HI : Inv qm s').
  { subst s' s. rewrite <- exec_app. apply Inv_reachable. }
  assert (Ht' : t ∈ queue s') by (by rewrite Hq).
  destruct (inv_queue _ _ HI t Ht') as [[Hs _]|[Hm _]]; [|done].
  split; [done|]. split; [|split].
  - rewrite <- elem_of_started. by apply (queued_not_started qm).
  - intros o Ho. apply elem_of_settlements in Ho. rewrite Hs in Ho.
    by apply elem_of_nil in Ho.
  - rewrite (promise_of_settlements s' t HI), Hs; [done|].
    apply (inv_bound _ _ HI), elem_of_app. by right.
Qed.

(** What [run] does to a live call when the manager has a [maxDelay]:
    [clearTimeout] first, then the task factory. *)
Lemma run_clears_then_calls (s : State M V E) t h :
  maxDelay qm ≠ 0 → call_timerId t s = Some h →
  log (run qm t s) = log s ++ [EClearTimeout h; EFactory t]
  ∧ timers (run qm t s) = delete h (timers s).
Proof.
  intros Hz Hc. unfold run. destruct (decide _); [done|]. rewrite Hc. simpl.
  by rewrite <- app_assoc.
Qed.

(** C8: a task whose factory was called is never abandoned.  In every state
    the limiter can reach, a call whose task factory was called has no
    deadline timer pending, and its promise was never rejected with the
    timeout error: [run] clears the timer of the call before it calls the
    factory. *)
Theorem started_task_never_times_out (m : M) (ins : list (Input V E))
    (t : nat) :
  let s := exec qm ins (pRateLimit m) in
  EFactory t ∈ log s →
  (∀ h, timers s !! h ≠ Some (Deadline t))
  ∧ (∀ msg, EReject t (RateLimitTimeoutError msg) ∉ log s)
  ∧ (∀ (x : State M V E) h, maxDelay qm ≠ 0 → call_timerId t x = Some h →
       log (run qm t x) = log x ++ [EClearTimeout h; EFactory t]
       ∧ timers (run qm t x) !! h = None).
Proof.
  intros s Hf. pose proof (Inv_reachable qm m ins) as HI. fold s in HI.
  apply elem_of_started in Hf. split; [|split].
  - intros h Hh. destruct (inv_deadline _ _ HI h t Hh) as [Hq _].
    by apply (queued_not_started qm s t HI Hq).
  - intros msg Hr.
    apply (elem_of_settlements _ t (Rejected (RateLimitTimeoutError msg))) in Hr.
    by destruct (inv_timeout _ _ HI t msg Hr) as [Hn _].
  - intros x h Hz Hc. destruct (run_clears_then_calls x t h Hz Hc) as [-> ->].
    split; [done|]. apply lookup_delete_eq.
Qed.

(** C3: the deadline abandons a queued call.  When the deadline timer of
    call [t] fires (it is pending only while the call is in the queue, so
    the runner of the call has not run), the promise of [t], pending until
    then, is rejected with the timeout error and [next] is called.  From
    then on the [timerId] of the call is null: whenever its runner is
    called it returns at once, the task factory of [t] is never called, and
    nothing calls [resolve] or [reject] of [t] again. *)
Theorem deadline_abandons_queued_call (m : M) (ins post : list (Input V E))
    (h t : nat) :
  let s := exec qm ins (pRateLimit m) in
  let s' := step qm (TimerFires h) s in
  let s'' := exec qm post s' in
  timers s !! h = Some (Deadline t) → reactions s = [] →
  (maxDelay qm ≠ 0 ∧ t ∈ queue s ∧ promise t s = Some None)
  ∧ promise t s' = Some (Some timedOut)
  ∧ (∃ l, log s' = log s ++ EReject t (RateLimitTimeoutError timeoutMessage)
                         :: ENext (FromDeadline t) :: l
          ∧ Forall loopEvent l)
  ∧ (∀ x : State M V E, calls x = calls s'' → run qm t x = x)
  ∧ (EFactory t ∉ log s'')
  ∧ settlements t (log s'') = [timedOut]
  ∧ promise t s'' = Some (Some timedOut).
Proof.
  intros s s' s'' Hh Hr.
  pose proof (Inv_reachable qm m ins) as HI. fold s in HI.
  assert (HI' : Inv qm s').
  { subst s'. by apply Inv_step. }
  assert (HI'' : Inv qm s'').
  { subst s''. by apply Inv_exec. }
  destruct (inv_deadline _ _ HI h t Hh) as [Hq Hc].
  assert (Hlt : t < length (calls s)).
  { apply (inv_bound _ _ HI), elem_of_app. by right. }
  pose proof (inv_queue _ _ HI t Hq) as HQ. rewrite Hc in HQ.
  destruct HQ as [[Hs [Hz _]]|(_ & Hn & _)]; [|done].
  assert (Hlog : ∃ l, log s' = log s ++ EReject t (RateLimitTimeoutError timeoutMessage)
                         :: ENext (FromDeadline t) :: l
                 ∧ Forall loopEvent l).
  { subst s'. simpl. rewrite Hr, Hh. simpl.
    destruct (next_frame qm (FromDeadline t)
      (reject t (RateLimitTimeoutError timeoutMessage)
         (set_call_timerId t None (set_timers (delete h (timers s)) s))))
      as (_ & _ & _ & l & e & f).
    exists l. split; [|done]. rewrite e. simpl. by rewrite <- app_assoc. }
  assert (Hin : Rejected (RateLimitTimeoutError timeoutMessage)
                ∈ settlements t (log s'')).
  { apply elem_of_settlements. subst s''. apply exec_log_elem.
    destruct Hlog as (l & -> & _). apply elem_of_app. right. left. }
  destruct (inv_timeout _ _ HI'' t _ Hin) as (Hns & Hse & Hnone).
  assert (Hlt'' : t < length (calls s'')).
  { destruct (decide (t < length (calls s''))) as [|Hge]; [done|].
    rewrite (inv_fresh _ _ HI'') in Hse by lia. done. }
  split; [|split; [|split; [done|split; [|split; [|split; [done|]]]]]].
  - split; [done|]. split; [done|].
    by rewrite (promise_of_settlements s t HI Hlt), Hs.
  - destruct Hlog as (l & Hl & Hfl).
    assert (Hlen : length (calls s') = length (calls s)).
    { subst s'. simpl. rewrite Hr, Hh. simpl.
      destruct (next_frame qm (FromDeadline t)
        (reject t (RateLimitTimeoutError timeoutMessage)
           (set_call_timerId t None (set_timers (delete h (timers s)) s))))
        as (_ & -> & _).
      simpl. by rewrite !length_alter. }
    rewrite (promise_of_settlements s' t HI') by lia.
    rewrite Hl. change (?a :: ?b :: l) with ([a] ++ [b] ++ l).
    rewrite !settlements_app, Hs, (settlements_loop t l Hfl). simpl.
    by destruct (decide (t = t)).
  - intros x Hx. unfold run. destruct (decide _); [done|].
    unfold call_timerId in *. by rewrite Hx, Hnone.
  - by rewrite <- elem_of_started.
  - by rewrite (promise_of_settlements s'' t HI'' Hlt''), Hse.
Qed.

Lemma occurrences_snoc {A : Type} `{EqDecision A} (x y : A) (l : list A) :
  occurrences x (l ++ [y]) = occurrences x l + (if decide (y = x) then 1 else 0).
Proof.
  unfold occurrences. rewrite filter_app, length_app, filter_cons.
  by destruct (decide (y = x)).
Qed.

Lemma occurrences_cons {A : Type} `{EqDecision A} (x y : A) (l : list A) :
  occurrences x (y :: l) = (if decide (y = x) then 1 else 0) + occurrences x l.
Proof.
  unfold occurrences. rewrite filter_cons. by destruct (decide (y = x)).
Qed.

Lemma run_running (s : State M V E) t u :
  u ∈ running (run qm t s) → u ∈ running s ∨ u = t.
Proof.
  unfold run. destruct (decide _); [|destruct (call_timerId t s)]; simpl;
    rewrite ?elem_of_app, ?list_elem_of_singleton; tauto.
Qed.

(** The loop adds to [running] only calls it takes from the queue. *)
Lemma drain_running (s : State M V E) u :
  u ∈ running (drain qm (queue s) s) → u ∈ running s ∨ u ∈ queue s.
Proof.
  revert u.
  apply (drain_inv qm (λ x, (∀ v, v ∈ queue x → v ∈ queue s)
                            ∧ ∀ v, v ∈ running x → v ∈ running s ∨ v ∈ queue s)).
  - intros x t q' m [Hq Hr] Hx _ _. rewrite run_queue. simpl. split.
    + intros v Hv. apply Hq. rewrite Hx. by right.
    + intros v Hv. apply run_running in Hv as [Hv| ->]; [by apply Hr|].
      right. apply Hq. rewrite Hx. left.
  - by intros x m [Hq Hr] _ _.
  - split; [done|]. intros v Hv. by left.
Qed.

Lemma next_not_running (s : State M V E) c t :
  t ∉ running s → t ∉ queue s → t ∉ running (next qm c s).
Proof.
  intros Hr Hq Hx. unfold next in Hx.
  assert (Hd : t ∈ running (drain qm (queue s) (emit (ENext c) s))).
  { by destruct (shouldArm _ _). }
  apply (drain_running (emit (ENext c) s)) in Hd. simpl in Hd. tauto.
Qed.

Lemma next_nexts (s : State M V E) c :
  nexts (log (next qm c s)) = nexts (log s) ++ [c]
  ∧ reactions (next qm c s) = reactions s.
Proof.
  destruct (next_frame qm c s) as (_ & _ & Hr & l & e & Hl). split; [|done].
  rewrite e. change (ENext c :: l) with ([ENext c] ++ l).
  by rewrite !nexts_app, (nexts_loop l Hl), app_nil_r.
Qed.

Lemma reacting_next (s x : State M V E) c t n :
  Inv qm s → t ∈ started (log s) →
  (t ∉ running x) → (∀ u, u ∈ queue x → u ∈ queue s ∨ u = length (calls s)) →
  (∃ l, log x = log s ++ l ∧ nexts l = []) →
  occurrences t (reactions x)
    + (occurrences (FromSettled t) (nexts (log s))
       + (if decide (c = FromSettled t) then 1 else 0)) = n →
  t ∈ started (log (next qm c x)) ∧ (t ∉ running (next qm c x))
  ∧ occurrences t (reactions (next qm c x))
    + occurrences (FromSettled t) (nexts (log (next qm c x))) = n.
Proof.
  intros HI Hst Hr Hq (l & Hl & Hn) Hocc.
  destruct (next_nexts x c) as [Hnx Hre].
  destruct (next_log qm x c) as [l1 Hl1].
  rewrite Hnx, Hre, Hl, nexts_app, Hn, app_nil_r, occurrences_snoc.
  split; [|split; [|done]].
  - rewrite Hl1, Hl, !started_app, !elem_of_app. auto.
  - apply next_not_running; [done|]. intros Hx.
    destruct (Hq t Hx) as [Hx'| ->].
    + by apply (queued_not_started qm s t HI Hx').
    + assert (length (calls s) < length (calls s)); [|lia].
      apply (inv_bound _ _ HI), elem_of_app. by left.
Qed.

Lemma reacting_step (s : State M V E) i t :
  Inv qm s → reacting t s → reacting t (step qm i s).
Proof.
  intros HI (Hst & Hr & Hocc).
  assert (Hnil : ∃ l : list (Event V E), log s = log s ++ l ∧ nexts l = []).
  { exists []. by rewrite app_nil_r. }
  destruct i as [| |h|u o|]; simpl.
  - unfold limiter. destruct (isClosed s); simpl.
    + split; [|split; [done|]]; by log_simpl.
    + apply (reacting_next s); try done.
      * unfold armDeadline. destruct (decide _); simpl; [done|done].
      * unfold armDeadline. destruct (decide _); simpl; intros u Hu;
          apply elem_of_app in Hu as [Hu|Hu]; auto;
          apply list_elem_of_singleton in Hu; auto.
      * unfold armDeadline. destruct (decide _); simpl; [done|].
        by eexists [_].
      * unfold armDeadline. destruct (decide _); simpl; lia.
  - unfold cleanupFn. destruct (isClosed s); [done|].
    split; [|split; [done|]]; simpl; log_simpl; done.
  - destruct (reactions s) eqn:Hre; [|by rewrite <- Hre in Hocc].
    destruct (timers s !! h) as [[|u]|]; [| |by rewrite <- Hre in Hocc]; simpl.
    + apply (reacting_next s); simpl; try done; auto. rewrite Hre. lia.
    + apply (reacting_next s); simpl; try done; auto.
      * by eexists [_].
      * rewrite Hre. lia.
  - destruct (decide (u ∈ running s)) as [Hu|]; [|done].
    assert (Hne : u ≠ t) by (by intros ->).
    rewrite settled_eq. split; [|split]; simpl.
    + rewrite !started_app, !elem_of_app. auto.
    + intros Hx. by apply list_elem_of_filter in Hx as [_ Hx].
    + rewrite !nexts_app, occurrences_snoc.
      destruct (decide (u = t)); [done|].
      destruct o; simpl; rewrite !app_nil_r; lia.
  - destruct (reactions s) as [|u rest] eqn:Hre; [by rewrite <- Hre in Hocc|].
    apply (reacting_next s); simpl; try done; auto.
    rewrite occurrences_cons in Hocc.
    destruct (decide (u = t)) as [->|Hne].
    + destruct (decide (FromSettled t = FromSettled t)); [lia|done].
    + destruct (decide (FromSettled u = FromSettled t)) as [[=]|]; [done|lia].
Qed.

Lemma reacting_exec (s : State M V E) ins t :
  Inv qm s → reacting t s → reacting t (exec qm ins s).
Proof.
  revert s. induction ins as [|i ins IH]; intros s HI Hr; [done|]. simpl.
  apply IH; [by apply Inv_step|by apply reacting_step].
Qed.

(** C6: the handler of a task that settles.  When the promise of a running
    task settles, the handler calls [end()], then [resolve] with the value
    or [reject] with the error as the task gave it, which settles the
    promise of the call, pending until then; the call to [next] is queued
    as a reaction of its own, and in every later state it is either still
    to run or has run once. *)
Theorem settled_task_ends_then_settles_then_next (m : M)
    (ins post : list (Input V E)) (t : nat) (o : V + E) :
  let s := exec qm ins (pRateLimit m) in
  let s' := step qm (TaskSettles t o) s in
  let s'' := exec qm post s' in
  t ∈ running s →
  (EFactory t ∈ log s ∧ promise t s = Some None
   ∧ (t ∉ reactions s) ∧ (FromSettled t ∉ nexts (log s)))
  ∧ log s' = log s ++ [EEnd; settleEvent t (outcome o)]
  ∧ quotaManager s' = end_ qm (quotaManager s)
  ∧ promise t s' = Some (Some (outcome o))
  ∧ reactions s' = reactions s ++ [t]
  ∧ occurrences t (reactions s'')
    + occurrences (FromSettled t) (nexts (log s'')) = 1
  ∧ promise t s'' = Some (Some (outcome o))
  ∧ (∀ rest, reactions s'' = t :: rest →
       ∃ l, log (step qm RunReaction s'')
            = log s'' ++ ENext (FromSettled t) :: l
            ∧ Forall loopEvent l).
Proof.
  intros s s' s'' Ht.
  pose proof (Inv_reachable qm m ins) as HI. fold s in HI.
  assert (HI' : Inv qm s') by (subst s'; by apply Inv_step).
  assert (HI'' : Inv qm s'') by (subst s''; by apply Inv_exec).
  destruct (inv_running _ _ HI t Ht) as (Hst & Hs & Hnr & Hnn).
  assert (Hlt : t < length (calls s)).
  { apply (inv_bound _ _ HI), elem_of_app. by left. }
  assert (Hs' : s' = settled qm t o
                  (set_running (filter (λ u, u ≠ t) (running s)) s)).
  { subst s'. simpl. by destruct (decide (t ∈ running s)). }
  assert (Hlog : log s' = log s ++ [EEnd; settleEvent t (outcome o)]).
  { rewrite Hs', settled_eq. simpl. by rewrite <- app_assoc. }
  assert (Hse : settlements t (log s') = [outcome o]).
  { rewrite Hlog. change [EEnd; ?e] with ([EEnd] ++ [e]).
    rewrite app_assoc, settlements_settleEvent, settlements_app, Hs. simpl.
    by destruct (decide (t = t)). }
  assert (Hre : reacting t s').
  { rewrite Hs', settled_eq. split; [|split]; simpl.
    - rewrite !started_app, !elem_of_app. auto.
    - intros Hx. by apply list_elem_of_filter in Hx as [Hx _].
    - rewrite !nexts_app, occurrences_snoc.
      destruct (decide (t = t)); [|done].
      assert (H0 : ∀ {A} `{EqDecision A} (x : A) l, x ∉ l → occurrences x l = 0).
      { intros A ? x l Hx. unfold occurrences.
        induction l as [|y l IH]; [done|]. rewrite filter_cons.
        apply not_elem_of_cons in Hx as [Hne Hx].
        destruct (decide (y = x)); [congruence|by apply IH]. }
      rewrite (H0 _ _ t (reactions s) Hnr).
      destruct o; simpl; rewrite !app_nil_r, (H0 _ _ _ _ Hnn); lia. }
  pose proof (reacting_exec s' post t HI' Hre) as Hrr.
  change (exec qm post s') with s'' in Hrr. destruct Hrr as (Hst'' & Hr'' & Hocc).
  assert (Hlt'' : t < length (calls s'')).
  { apply (inv_bound _ _ HI''), elem_of_app. by left. }
  split; [|split; [done|split; [|split; [|split; [|split; [done|split]]]]]].
  - split; [by apply elem_of_started|]. split; [|done].
    by rewrite (promise_of_settlements s t HI Hlt), Hs.
  - rewrite Hs', settled_eq. by destruct o.
  - rewrite (promise_of_settlements s' t HI'), Hse; [done|].
    rewrite Hs', settled_eq. simpl. by rewrite length_alter.
  - rewrite Hs', settled_eq. by destruct o.
  - rewrite (promise_of_settlements s'' t HI'' Hlt'').
    destruct (exec_log qm s' post) as [l Hl].
    change (exec qm post s') with s'' in Hl.
    by rewrite Hl, settlements_app, Hse.
  - intros rest Hrest. simpl. rewrite Hrest.
    destruct (next_frame qm (FromSettled t) (set_reactions rest s''))
      as (_ & _ & _ & l & e & f).
    by exists l.
Qed.

(** C7: the poll timer.  [next] arms it exactly when, after the loop, the
    queue is not empty, [activeCount] is zero and [timerId] is null (the
    loop itself sets no timer); in every state the limiter can reach the
    pending poll timers are the one [timerId] names, so there is at most
    one; and a poll timer that fires sets [timerId] to null, then calls
    [next]. *)
Theorem fallback_timer_armed_once (m : M) (ins : list (Input V E))
    (c : Caller) (x : State M V E) (h h1 h2 : nat) :
  let s := exec qm ins (pRateLimit m) in
  let x1 := drain qm (queue x) (emit (ENext c) x) in
  let arming := bool_decide (queue x1 ≠ [])
                && bool_decide (activeCount qm (quotaManager x1) = 0%Z)
                && bool_decide (timerId x1 = None) in
  (timers (next qm c x)
     = (if arming then <[nextTimer x1 := FallbackPoll]> (timers x1)
        else timers x1)
   ∧ timerId (next qm c x)
     = (if arming then Some (nextTimer x1) else timerId x1)
   ∧ log (next qm c x)
     = log x1 ++ (if arming then [ESetTimeout (nextTimer x1) FallbackPoll 100]
                  else [])
   ∧ count isArm (log x1) = count isArm (log x))
  ∧ (timers s !! h = Some FallbackPoll ↔ timerId s = Some h)
  ∧ (timers s !! h1 = Some FallbackPoll → timers s !! h2 = Some FallbackPoll →
     h1 = h2)
  ∧ (timers x !! h = Some FallbackPoll → reactions x = [] →
     step qm (TimerFires h) x
     = next qm FromFallback (set_timerId None (set_timers (delete h (timers x)) x))
     ∧ timers (set_timers (delete h (timers x)) x) !! h = None).
Proof.
  intros s x1 arming.
  pose proof (Inv_reachable qm m ins) as HI. fold s in HI.
  split; [|split; [|split]].
  - assert (Hnext : next qm c x = if arming then arm x1 else x1) by done.
    rewrite Hnext.
    assert (Hcount : count isArm (log x1) = count isArm (log x)).
    { destruct (drain_frame qm (emit (ENext c) x)) as (_ & _ & _ & _ & l & e & f).
      simpl in e. fold x1 in e. rewrite e, !count_app.
      rewrite (count_none drainEvent isArm l); [|by intros []|done].
      unfold count. simpl. lia. }
    destruct arming; simpl; repeat split; try done. by rewrite app_nil_r.
  - apply (inv_fallback _ _ HI).
  - intros H1 H2. apply (inv_fallback _ _ HI) in H1, H2. congruence.
  - intros Hh Hr. simpl. rewrite Hr, Hh. split; [done|]. apply lookup_delete_eq.
Qed.

Lemma run_started (s : State M V E) t :
  started (log (run qm t s)) = started (log s)
  ∨ started (log (run qm t s)) = started (log s) ++ [t].
Proof.
  unfold run. destruct (decide _); [|destruct (call_timerId t s)]; simpl;
    rewrite ?started_app; simpl; rewrite ?app_nil_r; auto.
Qed.

Lemma run_starts (s : State M V E) t :
  count (isStart true) (log (run qm t s)) = count (isStart true) (log s).
Proof.
  unfold run. destruct (decide _); [|destruct (call_timerId t s)]; simpl;
    rewrite ?count_app; unfold count; simpl; lia.
Qed.

(** The loop takes its calls from the head of the queue, one for each
    [start()] that returned true, and the factories it calls are called
    in the order of the queue. *)
Lemma drain_fifo (x : State M V E) :
  let x1 := drain qm (queue x) x in
  ∃ p p', queue x = p ++ queue x1
          ∧ started (log x1) = started (log x) ++ p'
          ∧ p' `sublist_of` p
          ∧ count (isStart true) (log x1)
            = count (isStart true) (log x) + length p.
Proof.
  apply (drain_inv qm (λ y, ∃ p p', queue x = p ++ queue y
          ∧ started (log y) = started (log x) ++ p'
          ∧ p' `sublist_of` p
          ∧ count (isStart true) (log y)
            = count (isStart true) (log x) + length p)).
  - intros y t q' m' (p & p' & Hq & Hs & Hsub & Hc) Hy _ _.
    exists (p ++ [t]). rewrite run_queue, run_starts. simpl.
    destruct (run_started (set_queue q' (emit (EStart true) (set_quotaManager m' y))) t)
      as [Hr|Hr]; rewrite Hr; simpl; rewrite started_app; simpl;
      rewrite app_nil_r, Hs.
    + exists p'. rewrite Hq, Hy, <- app_assoc. repeat split; try done.
      * by apply sublist_inserts_r.
      * rewrite count_app, count_single, length_app, Hc. simpl. lia.
    + exists (p' ++ [t]). rewrite Hq, Hy, <- !app_assoc. repeat split; try done.
      * by apply sublist_app.
      * rewrite count_app, count_single, length_app, Hc. simpl. lia.
  - intros y m' (p & p' & Hq & Hs & Hsub & Hc) _ _.
    exists p, p'. simpl. rewrite started_app, count_app. simpl.
    rewrite app_nil_r. repeat split; try done.
    rewrite count_single; simpl; lia.
  - exists [], []. rewrite app_nil_r. repeat split; try done.
Qed.

(** C2: the loop of [next] and the order of the tasks.  The loop is the
    [while] of the source: it goes on exactly while the limiter is not
    closed, the queue is not empty and [start()] returns true, and each
    turn shifts the head of the queue and runs it at once.  The calls it
    takes are a prefix of the queue, one for each [start()] that returned
    true.  So, whatever the manager (one of concurrency 1 among them),
    the task factories are called in the order of the calls of
    [limiter]. *)
Theorem next_loop_runs_in_submission_order (m : M) (ins : list (Input V E))
    (x : State M V E) (c : Caller) :
  let s := exec qm ins (pRateLimit m) in
  let x1 := drain qm (queue x) x in
  drain qm (queue x) x
    = (match queue x with
       | [] => x
       | t :: q' =>
           if isClosed x then x
           else
             let '(ok, m') := start qm (quotaManager x) in
             let x' := emit (EStart ok) (set_quotaManager m' x) in
             if ok
             then let x'' := run qm t (set_queue q' x') in
                  drain qm (queue x'') x''
             else x'
       end)
  ∧ next qm c x
    = (let y := drain qm (queue x) (emit (ENext c) x) in
       if shouldArm qm y then arm y else y)
  ∧ (∃ p p', queue x = p ++ queue x1
             ∧ started (log x1) = started (log x) ++ p'
             ∧ p' `sublist_of` p
             ∧ count (isStart true) (log x1)
               = count (isStart true) (log x) + length p)
  ∧ StronglySorted lt (started (log s))
  ∧ (limiter qm s).1 = length (calls s)
  ∧ length (calls (limiter qm s).2) = S (length (calls s)).
Proof.
  intros s x1.
  pose proof (Inv_reachable qm m ins) as HI. fold s in HI.
  split; [|split; [done|split; [apply drain_fifo|split; [|split]]]].
  - destruct (queue x) as [|t q'] eqn:Hq; [done|]. simpl.
    destruct (isClosed x); [done|].
    destruct (start qm (quotaManager x)) as [[|] m']; [|done].
    by rewrite run_queue.
  - exact (StronglySorted_app_1_l _ _ _ (inv_fifo _ _ HI)).
  - unfold limiter. by destruct (isClosed s).
  - unfold limiter. destruct (isClosed s); simpl.
    + rewrite length_alter, length_app. simpl. lia.
    + destruct (next_frame qm (FromLimiter (length (calls s)))
        (set_queue (queue (armDeadline qm (length (calls s))
            (set_calls (calls s ++ [Call.mk None None]) s)) ++ [length (calls s)])
          (armDeadline qm (length (calls s))
            (set_calls (calls s ++ [Call.mk None None]) s)))) as (_ & -> & _).
      unfold armDeadline. destruct (decide _); simpl;
        rewrite ?length_alter, length_app; simpl; lia.
Qed.

(** C10, as the code has it: the poll timer of a closed limiter.  In a
    closed limiter with a queue that is not empty and an [activeCount] of
    zero, a call of [next] made while no poll timer is armed arms a new
    one, and a call made while one is armed leaves that one and arms none;
    either way a poll timer is armed after the call, and the queue and the
    manager are as before.  So the poll timer of such a limiter, each time
    it fires, arms the next one: after [n] polls there were [n] more
    timers, and one is armed. *)
Theorem closed_limiter_rearms_when_unarmed (m : M) (ins : list (Input V E))
    (c : Caller) (x : State M V E) (n : nat) :
  let s := exec qm ins (pRateLimit m) in
  let sn := Nat.iter n (poll qm) s in
  (isClosed x = true → queue x ≠ [] → activeCount qm (quotaManager x) = 0%Z →
     (timerId x = None →
        timerId (next qm c x) = Some (nextTimer x)
        ∧ timers (next qm c x) = <[nextTimer x := FallbackPoll]> (timers x)
        ∧ log (next qm c x)
          = log x ++ [ENext c; ESetTimeout (nextTimer x) FallbackPoll 100])
     ∧ (is_Some (timerId x) → next qm c x = emit (ENext c) x)
     ∧ is_Some (timerId (next qm c x))
     ∧ isClosed (next qm c x) = true
     ∧ queue (next qm c x) = queue x
     ∧ quotaManager (next qm c x) = quotaManager x)
  ∧ (isClosed s = true → queue s ≠ [] → activeCount qm (quotaManager s) = 0%Z →
     reactions s = [] → is_Some (timerId s) →
     is_Some (timerId sn)
     ∧ count isArm (log sn) = count isArm (log s) + n
     ∧ isClosed sn = true ∧ queue sn = queue s
     ∧ quotaManager sn = quotaManager s).
Proof.
  intros s sn.
  assert (Hone : ∀ (y : State M V E) c',
    isClosed y = true → queue y ≠ [] → activeCount qm (quotaManager y) = 0%Z →
    (timerId y = None → next qm c' y = arm (emit (ENext c') y))
    ∧ (is_Some (timerId y) → next qm c' y = emit (ENext c') y)).
  { intros y c' Hc Hq Ha. rewrite next_closed by done. unfold shouldArm. simpl.
    rewrite (bool_decide_eq_true_2 _ Hq), (bool_decide_eq_true_2 _ Ha). simpl.
    split.
    - intros Hn. by rewrite (bool_decide_eq_true_2 _ Hn).
    - intros [k Hk]. rewrite bool_decide_eq_false_2; [done|]. by rewrite Hk. }
  split.
  - intros Hc Hq Ha. destruct (Hone x c Hc Hq Ha) as [H1 H2].
    split; [|split; [done|]].
    + intros Hn. rewrite (H1 Hn). simpl. by rewrite <- app_assoc.
    + destruct (timerId x) as [k|] eqn:Hk.
      * rewrite H2 by eauto. simpl. rewrite Hk. eauto.
      * rewrite H1 by done. simpl. eauto.
  - intros Hc Hq Ha Hr Ht.
    enough (HG : Inv qm sn ∧ reactions sn = [] ∧ is_Some (timerId sn)
                 ∧ count isArm (log sn) = count isArm (log s) + n
                 ∧ isClosed sn = true ∧ queue sn = queue s
                 ∧ quotaManager sn = quotaManager s) by tauto.
    subst sn. induction n as [|k IH]; simpl.
    + split; [apply Inv_reachable|]. split; [done|]. split; [done|].
      split; [lia|done].
    + destruct IH as (HI & Hr' & [h Hh] & Hcnt & Hc' & Hq' & Hm').
      set (y := Nat.iter k (poll qm) s) in *.
      assert (Hf : timers y !! h = Some FallbackPoll) by (by apply (inv_fallback _ _ HI)).
      assert (Hp : poll qm y
        = next qm FromFallback (set_timerId None (set_timers (delete h (timers y)) y))).
      { unfold poll. rewrite Hh. simpl. by rewrite Hr', Hf. }
      assert (HIp : Inv qm (poll qm y)).
      { unfold poll. rewrite Hh. by apply Inv_step. }
      destruct (Hone (set_timerId None (set_timers (delete h (timers y)) y))
                  FromFallback) as [H1 _]; simpl; [done|by rewrite Hq'|by rewrite Hm'|].
      rewrite Hp in *. rewrite H1 by done. rewrite H1 in HIp by done. simpl.
      split; [done|]. split; [done|]. split; [eauto|].
      split; [|by rewrite Hq', Hm'].
      rewrite !count_app, !count_single, Hcnt. simpl. lia.
Qed.

End Claims.

(** ** The accounts of the limiter *)

Section Accounting.
Context {M V E : Type}.
Variable qm : QuotaManager M.

Lemma count_snoc (f : Event V E → bool) l e :
  count f (l ++ [e]) = count f l + (if f e then 1 else 0).
Proof. by rewrite count_app, count_single. Qed.

Lemma abandonedIn_ext (l l' : list (Event V E)) q :
  (∀ t, t ∈ q → settlements t l' = settlements t l) →
  abandonedIn l' q = abandonedIn l q.
Proof.
  unfold abandonedIn. induction q as [|t q IH]; intros H; [done|].
  rewrite !filter_cons, (H t) by left.
  destruct (decide (settlements t l ≠ [])); simpl; rewrite IH; auto;
    intros u Hu; apply H; by right.
Qed.

Lemma abandonedIn_cons (l : list (Event V E)) t q :
  abandonedIn l (t :: q)
  = (if decide (settlements t l = []) then 0 else 1) + abandonedIn l q.
Proof.
  unfold abandonedIn. rewrite filter_cons.
  destruct (decide (settlements t l = [])) as [H|H];
    destruct (decide (settlements t l ≠ [])); done.
Qed.

Lemma abandonedIn_snoc (l : list (Event V E)) t q :
  abandonedIn l (q ++ [t])
  = abandonedIn l q + (if decide (settlements t l = []) then 0 else 1).
Proof.
  unfold abandonedIn. rewrite filter_app, length_app, filter_cons.
  destruct (decide (settlements t l = [])) as [H|H];
    destruct (decide (settlements t l ≠ [])); done.
Qed.

(** The deadline of a live entry abandons one entry more. *)
Lemma abandonedIn_timeout (l : list (Event V E)) t r q :
  NoDup q → t ∈ q → settlements t l = [] →
  abandonedIn (l ++ [EReject t r]) q = S (abandonedIn l q).
Proof.
  intros Hnd Ht Hs. induction q as [|u q IH]; [by apply elem_of_nil in Ht|].
  apply NoDup_cons in Hnd as [Hu Hnd]. rewrite !abandonedIn_cons.
  rewrite settlements_reject.
  apply elem_of_cons in Ht as [<-|Ht].
  - rewrite Hs. destruct (decide (t = t)); [|done]. simpl.
    rewrite (abandonedIn_ext l); [done|].
    intros v Hv. rewrite settlements_reject.
    destruct (decide (t = v)) as [<-|]; [done|by rewrite app_nil_r].
  - destruct (decide (t = u)) as [<-|]; [done|]. rewrite app_nil_r, IH by done.
    destruct (decide _); lia.
Qed.


Lemma Ledger_same (s s' : State M V E) :
  Ledger qm s → queue s' = queue s → length (calls s') = length (calls s) →
  running s' = running s → log s' = log s → Ledger qm s'.
Proof. intros [] Hq Hc Hr Hl. split; rewrite ?Hq, ?Hc, ?Hr, ?Hl; done. Qed.

Lemma Ledger_emit (s : State M V E) e :
  Ledger qm s → uncounted e → Ledger qm (emit e s).
Proof.
  intros [] (H1 & H2 & H3 & H4 & H5).
  assert (Hse : ∀ t, settlements t (log s ++ [e]) = settlements t (log s)).
  { intros t. by rewrite settlements_app, H5, app_nil_r. }
  split; simpl; rewrite ?count_snoc, ?H1, ?H2, ?H3, ?started_app, ?H4, ?app_nil_r,
    ?Nat.add_0_r; try done.
  - by rewrite (abandonedIn_ext (log s)).
  - intros t. by rewrite Hse.
  - intros t. rewrite Hse. auto.
Qed.

(** What [run] does: nothing to an abandoned entry; for a live one, the
    task factory is called and the call is running. *)
Lemma run_cases (s : State M V E) t :
  (maxDelay qm ≠ 0 ∧ call_timerId t s = None ∧ run qm t s = s)
  ∨ ((maxDelay qm = 0 ∨ is_Some (call_timerId t s))
     ∧ running (run qm t s) = running s ++ [t]
     ∧ queue (run qm t s) = queue s
     ∧ calls (run qm t s) = calls s
     ∧ started (log (run qm t s)) = started (log s) ++ [t]
     ∧ (∀ f, f (EFactory t) = false → (∀ h, f (EClearTimeout h) = false) →
          count f (log (run qm t s)) = count f (log s))
     ∧ (∀ u, settlements u (log (run qm t s)) = settlements u (log s))).
Proof.
  unfold run. destruct (decide (maxDelay qm = 0)) as [Hz|Hz];
    [|destruct (call_timerId t s) as [h|] eqn:Hc]; [right|right|by left].
  - split; [by left|]. simpl. repeat split; try done.
    + by rewrite started_app.
    + intros f Hf _. by rewrite count_snoc, Hf, Nat.add_0_r.
    + intros u. by rewrite settlements_app, app_nil_r.
  - split; [right; eauto|]. simpl. repeat split; try done.
    + rewrite !started_app. simpl. by rewrite app_nil_r.
    + intros f Hf Hg. by rewrite !count_snoc, Hf, Hg, !Nat.add_0_r.
    + intros u. rewrite !settlements_app. simpl. by rewrite !app_nil_r.
Qed.

Lemma Ledger_shift_run (s : State M V E) t q' m :
  Inv qm s → Ledger qm s → queue s = t :: q' →
  Ledger qm (run qm t (set_queue q' (emit (EStart true) (set_quotaManager m s)))).
Proof.
  intros HI HL Hq.
  assert (Hin : t ∈ queue s) by (rewrite Hq; left).
  pose proof (inv_queue _ _ HI t Hin) as HQ.
  assert (Hnr : t ∉ running s).
  { intros Hr. apply (queued_not_started qm s t HI Hin).
    by apply (inv_running _ _ HI). }
  destruct HL as [LR LE LS LO LP LN LA]. rewrite Hq in *.
  rewrite abandonedIn_cons in LS.
  set (s1 := set_queue q' (emit (EStart true) (set_quotaManager m s))).
  assert (Hq1 : queue s1 = q') by done.
  assert (Hr1 : running s1 = running s) by done.
  assert (Hc1 : calls s1 = calls s) by done.
  assert (Hl1 : log s1 = log s ++ [EStart true]) by done.
  assert (Ht1 : call_timerId t s1 = call_timerId t s) by done.
  clearbody s1.
  assert (Hse1 : ∀ u, settlements u (log s1) = settlements u (log s)).
  { intros u. by rewrite Hl1, settlements_app, app_nil_r. }
  assert (Hst1 : started (log s1) = started (log s)).
  { by rewrite Hl1, started_app, app_nil_r. }
  assert (Hab : abandonedIn (log s1) q' = abandonedIn (log s) q').
  { apply abandonedIn_ext. intros u _. apply Hse1. }
  assert (Hcn : ∀ f, count f (log s1)
                     = count f (log s) + (if f (EStart true) then 1 else 0)).
  { intros f. by rewrite Hl1, count_snoc. }
  destruct (run_cases s1 t) as [(Hz & Hn & Hrun)|(Hor & Hr & Hqr & Hc & Hst & Hcnt & Hse)].
  - rewrite Hrun. rewrite Ht1 in Hn.
    rewrite Hn in HQ. destruct HQ as [[_ HQ]|(_ & _ & HQ)]; [done|].
    rewrite HQ in LS. destruct (decide _) as [|_] in LS; [done|].
    split; rewrite ?Hq1, ?Hr1, ?Hc1, ?Hst1, ?Hab, ?Hcn; simpl; try done.
    + lia.
    + lia.
    + intros u. by rewrite Hse1.
    + intros u Hu. rewrite Hse1. intros Hs.
      destruct (LP u Hu Hs) as [Hx|Hx]; [|by right].
      apply elem_of_cons in Hx as [->|Hx]; [congruence|by left].
    + lia.
  - rewrite Ht1 in Hor.
    assert (Hs : settlements t (log s) = []).
    { destruct HQ as [[Hs _]|(Hz & Hn & _)]; [done|].
      destruct Hor as [|[h Hh]]; congruence. }
    rewrite Hs in LS. destruct (decide _) as [_|] in LS; [|done].
    split; rewrite ?Hr, ?Hqr, ?Hc, ?Hst, ?Hcnt, ?Hr1, ?Hq1, ?Hc1, ?Hst1, ?Hcn,
      ?length_app by done; simpl.
    + apply NoDup_app. repeat split; [done| |apply NoDup_singleton].
      intros u Hu Hx. apply list_elem_of_singleton in Hx as ->. done.
    + lia.
    + rewrite (abandonedIn_ext (log s)); [|intros u _; by rewrite Hse, Hse1].
      lia.
    + intros u. by rewrite Hse, Hse1.
    + intros u. rewrite Hse, Hse1. intros Hu Hsu.
      rewrite elem_of_app, list_elem_of_singleton.
      destruct (LP u Hu Hsu) as [Hx|Hx]; [|by auto].
      apply elem_of_cons in Hx as [->|Hx]; auto.
    + intros Hz. rewrite Nat.add_0_r. auto.
    + lia.
Qed.


Lemma Ledger_drain (s : State M V E) :
  Inv qm s → Ledger qm s →
  Inv qm (drain qm (queue s) s) ∧ Ledger qm (drain qm (queue s) s).
Proof.
  intros HI HL.
  apply (drain_inv qm (λ y, Inv qm y ∧ Ledger qm y)); [| |done].
  - intros y t q' m [HIy HLy] Hq _ _. split.
    + apply Inv_run; [|done].
      apply Inv_emit; [by apply Inv_set_quotaManager|done..].
    + by apply Ledger_shift_run.
  - intros y m [HIy HLy] _ _. split.
    + apply Inv_emit; [by apply Inv_set_quotaManager|done..].
    + apply Ledger_emit; [|by repeat split].
      by apply (Ledger_same y).
Qed.

Lemma Ledger_next (s : State M V E) c :
  Inv qm s → Ledger qm s →
  (∀ t, c = FromSettled t → (t ∉ running s) ∧ t ∈ started (log s)) →
  Ledger qm (next qm c s).
Proof.
  intros HI HL Hc. unfold next.
  destruct (Ledger_drain (emit (ENext c) s)) as [_ HD].
  { by apply Inv_emit_next. }
  { apply Ledger_emit; [done|by repeat split]. }
  simpl in HD. destruct (shouldArm _ _); [|done].
  unfold arm. simpl.
  apply (Ledger_same (emit (ESetTimeout
           (nextTimer (drain qm (queue s) (emit (ENext c) s))) FallbackPoll 100)
           (drain qm (queue s) (emit (ENext c) s)))); try done.
  apply Ledger_emit; [done|by repeat split].
Qed.

Lemma armDeadline_frame (s : State M V E) t :
  queue (armDeadline qm t s) = queue s
  ∧ running (armDeadline qm t s) = running s
  ∧ length (calls (armDeadline qm t s)) = length (calls s)
  ∧ ∃ l, log (armDeadline qm t s) = log s ++ l ∧ Forall uncounted l.
Proof.
  unfold armDeadline. destruct (decide _); simpl.
  - repeat split. exists []. by rewrite app_nil_r.
  - rewrite length_alter. repeat split. eexists [_]. split; [done|].
    by repeat constructor.
Qed.

Lemma Ledger_emits (s s' : State M V E) l :
  Ledger qm s → Forall uncounted l →
  queue s' = queue s → length (calls s') = length (calls s) →
  running s' = running s → log s' = log s ++ l → Ledger qm s'.
Proof.
  intros HL Hl. revert s s' HL.
  induction Hl as [|e l He _ IH]; intros s s' HL Hq Hc Hr Hlog.
  - rewrite app_nil_r in Hlog. by apply (Ledger_same s).
  - apply (IH (emit e s)); try done; [by apply Ledger_emit|].
    simpl. by rewrite Hlog, <- app_assoc.
Qed.

Lemma Ledger_limiter (s : State M V E) :
  Inv qm s → Ledger qm s → Ledger qm (limiter qm s).2.
Proof.
  intros HI HL.
  assert (Hq : ∀ u, u ∈ queue s → u ≠ length (calls s)).
  { intros u Hu ->. assert (length (calls s) < length (calls s)); [|lia].
    apply (inv_bound _ _ HI), elem_of_app. by right. }
  assert (Hfresh : settlements (length (calls s)) (log s) = []).
  { by apply (inv_fresh _ _ HI). }
  unfold limiter. destruct (isClosed s) eqn:Hc; simpl.
  - destruct HL as [LR LE LS LO LP LN LA].
    assert (Hse : ∀ u, u ≠ length (calls s) →
      settlements u (log s ++ [EReject (length (calls s))
                                 (AlreadyClosedError closedMessage)])
      = settlements u (log s)).
    { intros u Hu. rewrite settlements_reject.
      destruct (decide _); [congruence|by rewrite app_nil_r]. }
    split; simpl; rewrite ?count_snoc, ?started_app; simpl;
      rewrite ?app_nil_r, ?Nat.add_0_r; try done.
    + rewrite (abandonedIn_ext (log s)); [done|]. intros u Hu. by apply Hse, Hq.
    + intros u. destruct (decide (u = length (calls s))) as [->|Hne].
      * rewrite settlements_reject, Hfresh. by destruct (decide _).
      * by rewrite Hse.
    + intros u. rewrite length_alter, length_app. simpl. intros Hu.
      destruct (decide (u = length (calls s))) as [->|Hne].
      * rewrite settlements_reject, Hfresh. by destruct (decide _).
      * rewrite Hse by done. apply LP. lia.
  - set (s0 := set_calls (calls s ++ [Call.mk None None]) s).
    apply Ledger_next; [| |done].
    + apply Inv_enqueue.
      * by apply Inv_push_call.
      * simpl. rewrite length_app. simpl. lia.
      * simpl. apply (inv_bound _ _ HI).
      * done.
      * unfold call_timerId. simpl. by rewrite timerOf_push_new.
    + destruct (armDeadline_frame s0 (length (calls s))) as (Hq1 & Hr1 & Hc1 & l & Hl1 & Hl).
      assert (HL0 : Ledger qm (set_queue (queue s ++ [length (calls s)]) s0)).
      { destruct HL as [LR LE LS LO LP LN LA]. split; simpl; try done.
        - rewrite abandonedIn_snoc, Hfresh.
          destruct (decide _); [lia|done].
        - intros u. rewrite length_app. simpl. intros Hu Hs.
          destruct (decide (u = length (calls s))) as [->|Hne].
          + left. apply elem_of_app. right. left.
          + destruct (LP u) as [Hx|Hx]; [lia|done| |by right].
            left. apply elem_of_app. by left. }
      apply (Ledger_emits _ _ l HL0 Hl); simpl; rewrite ?Hq1; done.
Qed.

Lemma filter_out_length (l : list nat) t :
  NoDup l → t ∈ l → S (length (filter (λ u, u ≠ t) l)) = length l.
Proof.
  induction l as [|u l IH]; intros Hnd Ht; [by apply elem_of_nil in Ht|].
  apply NoDup_cons in Hnd as [Hu Hnd]. rewrite filter_cons.
  apply elem_of_cons in Ht as [<-|Ht].
  - destruct (decide (t ≠ t)); [done|]. simpl. f_equal.
    clear IH Hnd. induction l as [|v l IH]; [done|].
    apply not_elem_of_cons in Hu as [Hne Hu]. rewrite filter_cons.
    destruct (decide (v ≠ t)) as [|Hn]; [|exfalso; apply Hn; congruence].
    simpl. by rewrite IH.
  - destruct (decide (u ≠ t)) as [|Heq]; simpl; [by rewrite IH|].
    destruct (decide (u = t)) as [->|]; done.
Qed.

Lemma Ledger_fire_deadline (s : State M V E) h t :
  Inv qm s → Ledger qm s → timers s !! h = Some (Deadline t) →
  Ledger qm (reject t (RateLimitTimeoutError timeoutMessage)
               (set_call_timerId t None (set_timers (delete h (timers s)) s))).
Proof.
  intros HI HL Hh.
  destruct (inv_deadline _ _ HI h t Hh) as [Hq Hc].
  pose proof (inv_queue _ _ HI t Hq) as HQ. rewrite Hc in HQ.
  destruct HQ as [[Hs [Hz _]]|(_ & Hn & _)]; [|done].
  assert (Hnd : NoDup (queue s)).
  { pose proof (StronglySorted_app_1_r _ _ _ (inv_fifo _ _ HI)) as HS.
    clear -HS. induction HS as [|u q HS IH Hall]; constructor; [|done].
    intros Hu. rewrite Forall_forall in Hall. specialize (Hall _ Hu). lia. }
  assert (Hnr : t ∉ running s).
  { intros Hr. apply (queued_not_started qm s t HI Hq).
    by apply (inv_running _ _ HI). }
  destruct HL as [LR LE LS LO LP LN LA].
  assert (Hse : ∀ u, u ≠ t →
    settlements u (log s ++ [EReject t (RateLimitTimeoutError timeoutMessage)])
    = settlements u (log s)).
  { intros u Hu. rewrite settlements_reject.
    destruct (decide _); [congruence|by rewrite app_nil_r]. }
  split; simpl; rewrite ?count_snoc, ?started_app; simpl;
    rewrite ?app_nil_r, ?Nat.add_0_r; try done.
  - rewrite abandonedIn_timeout by done. lia.
  - intros u. destruct (decide (u = t)) as [->|Hne].
    + rewrite settlements_reject, Hs. by destruct (decide _).
    + by rewrite Hse.
  - intros u. rewrite !length_alter. intros Hu.
    destruct (decide (u = t)) as [->|Hne]; [auto|].
    rewrite Hse by done. by apply LP.
Qed.

Lemma Ledger_settled (s : State M V E) t o :
  Inv qm s → Ledger qm s → t ∈ running s →
  Ledger qm (settled qm t o (set_running (filter (λ u, u ≠ t) (running s)) s)).
Proof.
  intros HI HL Ht.
  destruct (inv_running _ _ HI t Ht) as (Hst & Hs & _ & _).
  assert (Hnq : ∀ u, u ∈ queue s → u ≠ t).
  { intros u Hu ->. by apply (queued_not_started qm s t HI Hu). }
  destruct HL as [LR LE LS LO LP LN LA].
  pose proof (filter_out_length (running s) t LR Ht) as Hlen.
  assert (Hse : ∀ u, u ≠ t →
    settlements u ((log s ++ [EEnd]) ++ [settleEvent t (outcome o)])
    = settlements u (log s)).
  { intros u Hu. rewrite settlements_settleEvent, settlements_app.
    destruct (decide _); [congruence|]. simpl. by rewrite !app_nil_r. }
  assert (Hst' : started ((log s ++ [EEnd]) ++ [settleEvent t (outcome o)])
                 = started (log s)).
  { rewrite !started_app. destruct o; simpl; by rewrite !app_nil_r. }
  assert (Hcnt : ∀ f, f (settleEvent t (outcome o)) = false →
    count f ((log s ++ [EEnd]) ++ [settleEvent t (outcome o)])
    = count f (log s) + (if f EEnd then 1 else 0)).
  { intros f Hf. rewrite !count_snoc, Hf. lia. }
  rewrite settled_eq.
  split; simpl; rewrite ?Hst', ?Hcnt by (by destruct o); simpl.
  - by apply NoDup_filter.
  - lia.
  - rewrite (abandonedIn_ext (log s)); [lia|]. intros u Hu. by apply Hse, Hnq.
  - intros u. destruct (decide (u = t)) as [->|Hne]; [|by rewrite Hse].
    rewrite settlements_settleEvent, settlements_app, Hs. simpl.
    by destruct (decide _).
  - intros u. rewrite length_alter. intros Hu.
    destruct (decide (u = t)) as [->|Hne].
    + rewrite settlements_settleEvent, settlements_app, Hs. simpl.
      by destruct (decide _).
    + rewrite Hse by done. intros Hsu.
      destruct (LP u Hu Hsu) as [Hx|Hx]; [by left|right].
      by apply list_elem_of_filter.
  - intros Hz. rewrite Nat.add_0_r. auto.
  - lia.
Qed.

Lemma Ledger_step (s : State M V E) i :
  Inv qm s → Ledger qm s → Ledger qm (step qm i s).
Proof.
  intros HI HL. destruct i as [| |h|t o|]; simpl.
  - by apply Ledger_limiter.
  - unfold cleanupFn. destruct (isClosed s); [done|].
    apply (Ledger_same (emit EClose s)); try done.
    apply Ledger_emit; [done|by repeat split].
  - destruct (reactions s); [|done].
    destruct (timers s !! h) as [[|t]|] eqn:Hh; [| |done]; simpl.
    + apply Ledger_next; [by apply Inv_fire_fallback| |done].
      by apply (Ledger_same s).
    + apply Ledger_next; [by apply Inv_fire_deadline| |done].
      by apply Ledger_fire_deadline.
  - destruct (decide (t ∈ running s)); [|done]. by apply Ledger_settled.
  - destruct (reactions s) as [|t rest] eqn:Hr; [done|].
    assert (Ht : t ∈ reactions s) by (rewrite Hr; left).
    apply Ledger_next.
    + destruct HI as [IH IF ID IQ IS IB IP IN IR IX IT].
      split; simpl; try done.
      * intros u Hu. destruct (IR u Hu) as (a & b & c & d).
        repeat split; try done. intros Hx. apply c. rewrite Hr. by right.
      * intros u [Hu|Hu]; apply IX; [left|by right]. rewrite Hr. by right.
    + by apply (Ledger_same s).
    + intros u [= <-]. simpl. split.
      * intros Hx. by destruct (inv_running _ _ HI t Hx) as (_ & _ & c & _).
      * apply (inv_reacted _ _ HI). by left.
Qed.

Lemma Ledger_reachable m (ins : list (Input V E)) :
  Ledger qm (exec qm ins (pRateLimit m)).
Proof.
  enough (H : ∀ s : State M V E, Inv qm s → Ledger qm s → Ledger qm (exec qm ins s)).
  { apply H; [apply Inv_init|]. split; simpl; try done; [constructor|lia|].
    intros t Ht. lia. }
  induction ins as [|i ins IH]; intros s HI HL; [done|]. simpl.
  apply IH; [by apply Inv_step|by apply Ledger_step].
Qed.

End Accounting.

(** ** More of what the limiter keeps *)

Section Kept.
Context {M V E : Type}.
Variable qm : QuotaManager M.





(** Each promise is settled at most once: in every state the limiter can
    reach, [resolve] and [reject] of a call were called at most once
    between them, and the promise of the call holds what they were called
    with (it is pending if they were not). *)
Theorem promise_settled_at_most_once (m : M) (ins : list (Input V E))
    (t : nat) :
  let s := exec qm ins (pRateLimit m) in
  length (settlements t (log s)) ≤ 1
  ∧ promise t s = (if decide (t < length (calls s))
                   then Some (head (settlements t (log s))) else None).
Proof.
  intros s.
  pose proof (Inv_reachable qm m ins) as HI.
  pose proof (Ledger_reachable qm m ins) as HL. fold s in HI, HL.
  split; [apply (led_once _ _ HL)|].
  destruct (decide (t < length (calls s))) as [Hlt|Hge].
  - by apply (promise_of_settlements qm).
  - unfold promise. rewrite lookup_ge_None_2; [done|lia].
Qed.


(** No call overtakes another: in every state the limiter can reach the
    queue holds the calls in the order they were made, each once, and
    every call in the queue was made after every call whose task has
    started. *)
Theorem queue_keeps_submission_order (m : M) (ins : list (Input V E)) :
  let s := exec qm ins (pRateLimit m) in
  StronglySorted lt (queue s)
  ∧ (∀ t u, EFactory t ∈ log s → u ∈ queue s → t < u)
  ∧ (∀ u, u ∈ queue s → u < length (calls s)).
Proof.
  intros s. pose proof (Inv_reachable qm m ins) as HI. fold s in HI.
  split; [exact (StronglySorted_app_1_r _ _ _ (inv_fifo _ _ HI))|]. split.
  - intros t u Ht Hu. apply elem_of_started in Ht.
    exact (StronglySorted_app_1_elem_of _ _ _ _ _ (inv_fifo _ _ HI) Ht Hu).
  - intros u Hu. apply (inv_bound _ _ HI), elem_of_app. by right.
Qed.

Lemma run_count (f : Event V E → bool) (s : State M V E) t :
  f (EFactory t) = false → (∀ h, f (EClearTimeout h) = false) →
  count f (log (run qm t s)) = count f (log s).
Proof.
  intros Hf Hg.
  destruct (run_cases qm s t) as [(_ & _ & ->)|(_ & _ & _ & _ & _ & Hc & _)]; auto.
Qed.

Lemma tallied_same limit (s s' : State M V E) :
  tallied qm limit s → quotaManager s' = quotaManager s →
  count (isStart true) (log s') = count (isStart true) (log s) →
  count isEnd (log s') = count isEnd (log s) → tallied qm limit s'.
Proof. intros [H1 H2] Hm Hs He. unfold tallied. by rewrite Hm, Hs, He. Qed.

Lemma tallied_next limit (s : State M V E) c :
  countsActive qm limit → tallied qm limit s → tallied qm limit (next qm c s).
Proof.
  intros (Ht & Hf & _ & _) Hs. unfold next.
  assert (Hd : tallied qm limit (drain qm (queue s) (emit (ENext c) s))).
  { change (queue s) with (queue (emit (ENext c) s)).
    apply (drain_inv qm (tallied qm limit)).
    - intros y t q' m' [Hy1 Hy2] _ _ Hst. destruct (Ht _ _ Hst) as [Hlt Hm'].
      unfold tallied. rewrite run_quotaManager, !run_count by done. simpl.
      rewrite !count_snoc, Hm', Hy1. simpl. lia.
    - intros y m' [Hy1 Hy2] _ Hst. unfold tallied. simpl.
      rewrite !count_snoc, (Hf _ _ Hst), Hy1. simpl. lia.
    - apply (tallied_same limit s); try done; simpl; rewrite count_snoc;
        simpl; lia. }
  destruct (shouldArm _ _); [|done].
  apply (tallied_same limit _ _ Hd); try done; simpl; rewrite count_snoc;
    simpl; lia.
Qed.

Lemma tallied_step limit (s : State M V E) i :
  countsActive qm limit → tallied qm limit s → tallied qm limit (step qm i s).
Proof.
  intros Hc Hs. pose proof Hc as (_ & _ & He & Hcl).
  destruct i as [| |h|t o|]; simpl.
  - unfold limiter. destruct (isClosed s); simpl.
    + apply (tallied_same limit s); try done; simpl; rewrite count_snoc;
        simpl; lia.
    + apply tallied_next; [done|]. unfold armDeadline.
      destruct (decide _); simpl.
      * by apply (tallied_same limit s).
      * apply (tallied_same limit s); try done; simpl; rewrite count_snoc;
          simpl; lia.
  - unfold cleanupFn. destruct (isClosed s); [done|].
    destruct Hs as [H1 H2]. unfold tallied. simpl.
    rewrite !count_snoc, Hcl, H1. simpl. lia.
  - destruct (reactions s); [|done].
    destruct (timers s !! h) as [[|t]|]; [| |done]; simpl.
    + apply tallied_next; [done|]. by apply (tallied_same limit s).
    + apply tallied_next; [done|].
      apply (tallied_same limit s); try done; simpl; rewrite count_snoc;
        simpl; lia.
  - destruct (decide _); [|done]. rewrite settled_eq.
    destruct Hs as [H1 H2]. unfold tallied. simpl.
    rewrite !count_snoc, He, H1. destruct o; simpl; lia.
  - destruct (reactions s) as [|t rest]; [done|].
    apply tallied_next; [done|]. by apply (tallied_same limit s).
Qed.

(** The limit of the manager bounds the tasks that run.  With a manager
    that counts what it admits up to a limit and starts at zero, in every
    state the limiter can reach [activeCount] is the admissions less the
    [end()] calls, it is at most the limit, and the tasks that run are at
    most [activeCount]. *)
Theorem running_tasks_within_limit (limit : Z) (m : M)
    (ins : list (Input V E)) :
  let s := exec qm ins (pRateLimit m) in
  countsActive qm limit → activeCount qm m = 0%Z →
  (Z.of_nat (length (running s)) ≤ activeCount qm (quotaManager s))%Z
  ∧ (activeCount qm (quotaManager s) ≤ Z.max 0 limit)%Z
  ∧ activeCount qm (quotaManager s)
    = (Z.of_nat (count (isStart true) (log s))
       - Z.of_nat (count isEnd (log s)))%Z.
Proof.
  intros s Hc H0.
  pose proof (Ledger_reachable qm m ins) as HL. fold s in HL.
  assert (Ht : tallied qm limit s).
  { clear HL. subst s.
    enough (H : ∀ x : State M V E, tallied qm limit x → tallied qm limit (exec qm ins x)).
    { apply H. split; simpl; rewrite H0; [done|lia]. }
    induction ins as [|i l IH]; intros x Hx; [done|]. simpl.
    by apply IH, tallied_step. }
  destruct Ht as [Ht1 Ht2].
  pose proof (led_ends _ _ HL). pose proof (led_admitted _ _ HL). lia.
Qed.

Lemma drain_exit (q : list nat) (s : State M V E) :
  queue s = q →
  isClosed (drain qm q s) = true ∨ queue (drain qm q s) = []
  ∨ ∃ m, start qm m = (false, quotaManager (drain qm q s)).
Proof.
  revert s. induction q as [|t q' IH]; intros s Hq; simpl; [by auto|].
  destruct (isClosed s) eqn:Hc; [by auto|].
  destruct (start qm (quotaManager s)) as [[|] m'] eqn:Hst.
  - apply IH. by rewrite run_queue.
  - right. right. by exists (quotaManager s).
Qed.

(** What [next] leaves behind.  When [next] returns, the limiter is
    closed, or the queue is empty, or the last [start()] returned false:
    no call the manager would admit stays in the queue.  And if calls are
    left in the queue while [activeCount] is zero, a poll timer is armed:
    the queue is never left without something to call [next] again. *)
Theorem next_leaves_queue_refused_and_watched (x : State M V E) (c : Caller) :
  let y := next qm c x in
  (isClosed y = true ∨ queue y = []
   ∨ ∃ m, start qm m = (false, quotaManager y))
  ∧ (queue y = [] ∨ activeCount qm (quotaManager y) ≠ 0%Z
     ∨ is_Some (timerId y)).
Proof.
  intros y. subst y. unfold next.
  pose proof (drain_exit (queue x) (emit (ENext c) x) eq_refl) as Hex.
  destruct (shouldArm _ _) eqn:Ha.
  - split; [exact Hex|]. right. right. simpl. eauto.
  - split; [exact Hex|]. unfold shouldArm in Ha.
    destruct (decide (queue (drain qm (queue x) (emit (ENext c) x)) = []))
      as [|Hq]; [by left|].
    destruct (decide (activeCount qm
      (quotaManager (drain qm (queue x) (emit (ENext c) x))) = 0%Z))
      as [Hz|]; [|by auto].
    rewrite (bool_decide_eq_true_2 _ Hq), (bool_decide_eq_true_2 _ Hz) in Ha.
    simpl in Ha. apply bool_decide_eq_false in Ha.
    right. right. by destruct (timerId _); [eauto|].
Qed.

(** An idle limiter keeps no timer.  In a state the limiter can reach with
    nothing in the queue, the only timer that can be pending is the poll
    timer; when it fires, [next] finds nothing to do and arms nothing: no
    timer is left. *)
Theorem idle_limiter_drops_its_poll_timer (m : M) (ins : list (Input V E))
    (h : nat) (cb : Callback) :
  let s := exec qm ins (pRateLimit m) in
  let s' := step qm (TimerFires h) s in
  queue s = [] → reactions s = [] → timers s !! h = Some cb →
  cb = FallbackPoll ∧ timers s = {[ h := FallbackPoll ]}
  ∧ timers s' = ∅ ∧ timerId s' = None
  ∧ log s' = log s ++ [ENext FromFallback]
  ∧ quotaManager s' = quotaManager s ∧ running s' = running s.
Proof.
  intros s s' Hq Hr Hh.
  pose proof (Inv_reachable qm m ins) as HI. fold s in HI.
  assert (Hall : ∀ k cb', timers s !! k = Some cb' → k = h ∧ cb' = FallbackPoll).
  { assert (Hfb : ∀ k cb', timers s !! k = Some cb' → cb' = FallbackPoll).
    { intros k [|t] Hk; [done|].
      destruct (inv_deadline _ _ HI k t Hk) as [Hx _].
      rewrite Hq in Hx. by apply elem_of_nil in Hx. }
    intros k cb' Hk. pose proof (Hfb _ _ Hk) as ->. split; [|done].
    pose proof (Hfb _ _ Hh) as ->.
    apply (inv_fallback _ _ HI) in Hk, Hh. congruence. }
  destruct (Hall _ _ Hh) as [_ ->].
  assert (Hs' : s' = emit (ENext FromFallback)
                  (set_timerId None (set_timers (delete h (timers s)) s))).
  { subst s'. simpl. rewrite Hr, Hh. simpl. unfold next. simpl. rewrite Hq.
    simpl. unfold shouldArm. simpl. rewrite Hq. done. }
  rewrite Hs'. simpl. repeat split.
  - apply map_eq. intros k. rewrite lookup_singleton.
    destruct (decide (h = k)) as [<-|Hne]; [done|].
    destruct (timers s !! k) as [cb'|] eqn:Hk; [|done].
    destruct (Hall _ _ Hk); congruence.
  - apply map_eq. intros k. rewrite lookup_empty, lookup_delete.
    destruct (decide (h = k)) as [<-|Hne]; [done|].
    destruct (timers s !! k) as [cb'|] eqn:Hk; [|done].
    destruct (Hall _ _ Hk); congruence.
Qed.


(** A call the manager refuses waits.  In an open limiter, if [start()]
    returns false, [limiter] leaves the new call at the tail of the queue
    with its promise pending; no task factory is called; the deadline of
    the call is pending if the manager has a [maxDelay]; and a poll timer
    is armed if [activeCount] is zero. *)
Theorem refused_call_waits_in_queue (m : M) (ins : list (Input V E))
    (m' : M) :
  let s := exec qm ins (pRateLimit m) in
  let t := (limiter qm s).1 in
  let s' := (limiter qm s).2 in
  isClosed s = false → start qm (quotaManager s) = (false, m') →
  queue s' = queue s ++ [t]
  ∧ promise t s' = Some None
  ∧ started (log s') = started (log s)
  ∧ running s' = running s
  ∧ quotaManager s' = m'
  ∧ (if decide (maxDelay qm = 0) then call_timerId t s' = None
     else call_timerId t s' = Some (nextTimer s)
          ∧ timers s' !! nextTimer s = Some (Deadline t))
  ∧ (activeCount qm m' ≠ 0%Z ∨ is_Some (timerId s')).
Proof.
  intros s t s' Hc Hst.
  pose proof (Inv_reachable qm m ins) as HI. fold s in HI.
  assert (Hd : ∀ x : State M V E, isClosed x = false →
    quotaManager x = quotaManager s → ∀ u q,
    drain qm (q ++ [u]) x = emit (EStart false) (set_quotaManager m' x)).
  { intros x Hx Hm u q. destruct q; simpl; by rewrite Hx, Hm, Hst. }
  assert (Harm : ∀ x : State M V E, quotaManager x = m' → queue x ≠ [] →
    activeCount qm m' ≠ 0%Z
    ∨ is_Some (timerId (if shouldArm qm x then arm x else x))).
  { intros x Hm Hq. destruct (shouldArm qm x) eqn:Ha; [by right; simpl; eauto|].
    unfold shouldArm in Ha. rewrite Hm in Ha.
    destruct (decide (activeCount qm m' = 0%Z)) as [Hz|]; [|by left].
    rewrite (bool_decide_eq_true_2 _ Hq), (bool_decide_eq_true_2 _ Hz) in Ha.
    simpl in Ha. apply bool_decide_eq_false in Ha.
    right. by destruct (timerId x); [eauto|]. }
  subst t s'. unfold limiter. rewrite Hc. simpl.
  unfold armDeadline, next.
  destruct (decide (maxDelay qm = 0)) as [Hz|Hz]; simpl; rewrite Hd by done.
  - split; [by destruct (shouldArm _ _)|].
    split.
    { unfold promise. destruct (shouldArm _ _); simpl;
        by rewrite list_lookup_middle. }
    split.
    { destruct (shouldArm _ _); simpl; rewrite !started_app; simpl;
        by rewrite !app_nil_r. }
    split; [by destruct (shouldArm _ _)|].
    split; [by destruct (shouldArm _ _)|].
    split.
    { unfold call_timerId. destruct (shouldArm _ _); simpl;
        by rewrite timerOf_push_new. }
    apply Harm; [done|]. simpl. by destruct (queue s).
  - assert (Hfresh : timers s !! nextTimer s = None).
    { destruct (timers s !! nextTimer s) as [cb|] eqn:Hl; [|done].
      apply (inv_handles _ _ HI) in Hl. lia. }
    split; [by destruct (shouldArm _ _)|].
    split.
    { unfold promise. destruct (shouldArm _ _); simpl;
        by rewrite list_lookup_alter_eq, list_lookup_middle. }
    split.
    { destruct (shouldArm _ _); simpl; rewrite !started_app; simpl;
        by rewrite !app_nil_r. }
    split; [by destruct (shouldArm _ _)|].
    split; [by destruct (shouldArm _ _)|].
    split.
    { unfold call_timerId. destruct (shouldArm _ _); simpl;
        rewrite timerOf_set_eq by (rewrite length_app; simpl; lia);
        (split; [done|]).
      - rewrite lookup_insert_ne by lia. apply lookup_insert_eq.
      - apply lookup_insert_eq. }
    apply Harm; [done|]. simpl. by destruct (queue s).
Qed.

Lemma next_closed_log (x : State M V E) c :
  isClosed x = true → ∃ l, log (next qm c x) = log x ++ l ∧ Forall quiet l.
Proof.
  intros Hc. rewrite next_closed by done. destruct (shouldArm _ _); simpl.
  - eexists [_; _]. rewrite <- app_assoc. split; [done|]. by repeat constructor.
  - eexists [_]. split; [done|]. by repeat constructor.
Qed.

Lemma step_closed_log (s : State M V E) i :
  isClosed s = true → ∃ l, log (step qm i s) = log s ++ l ∧ Forall quiet l.
Proof.
  intros Hc.
  assert (Hn : ∀ c (x : State M V E) l0, isClosed x = true →
    log x = log s ++ l0 → Forall quiet l0 →
    ∃ l, log (next qm c x) = log s ++ l ∧ Forall quiet l).
  { intros c x l0 Hx H0 Hl0. destruct (next_closed_log x c Hx) as (l & Hl & Hq).
    exists (l0 ++ l). rewrite Hl, H0, app_assoc. split; [done|].
    by apply Forall_app. }
  assert (H0 : ∃ l : list (Event V E), log s = log s ++ l ∧ Forall quiet l).
  { exists []. by rewrite app_nil_r. }
  destruct i as [| |h|t o|]; simpl.
  - unfold limiter. rewrite Hc. simpl. eexists [_]. split; [done|].
    by repeat constructor.
  - unfold cleanupFn. by rewrite Hc.
  - destruct (reactions s); [|done].
    destruct (timers s !! h) as [[|t]|]; [| |done]; simpl.
    + apply (Hn _ _ []); [done|by rewrite app_nil_r|done].
    + apply (Hn _ _ [EReject t (RateLimitTimeoutError timeoutMessage)]);
        [done|done|by repeat constructor].
  - destruct (decide _); [|done]. rewrite settled_eq. simpl.
    rewrite <- app_assoc. eexists. split; [done|].
    destruct o; by repeat constructor.
  - destruct (reactions s) as [|t rest]; [done|].
    apply (Hn _ _ []); [done|by rewrite app_nil_r|done].
Qed.

(** Closing stops the admissions.  From a closed limiter on, whatever
    happens, [start()] is never called again, no task factory is called,
    the queue is never shifted, and the limiter stays closed. *)
Theorem closed_limiter_admits_nothing (s : State M V E)
    (post : list (Input V E)) (admitted : bool) :
  let s' := exec qm post (cleanupFn qm s) in
  isClosed s' = true
  ∧ queue s' = queue s
  ∧ started (log s') = started (log s)
  ∧ count (isStart admitted) (log s') = count (isStart admitted) (log s)
  ∧ running s' ⊆ running s.
Proof.
  intros s'.
  assert (Hc : isClosed (cleanupFn qm s) = true).
  { unfold cleanupFn. by destruct (isClosed s) eqn:H0. }
  assert (Hq0 : queue (cleanupFn qm s) = queue s
                ∧ running (cleanupFn qm s) = running s
                ∧ started (log (cleanupFn qm s)) = started (log s)
                ∧ count (isStart admitted) (log (cleanupFn qm s))
                  = count (isStart admitted) (log s)).
  { unfold cleanupFn. destruct (isClosed s); [done|]. simpl.
    rewrite started_app, count_snoc. simpl. rewrite app_nil_r. by auto with lia. }
  destruct Hq0 as (Hq0 & Hr0 & Hs0 & Hn0).
  rewrite <- Hq0, <- Hr0, <- Hs0, <- Hn0. subst s'.
  clear Hq0 Hr0 Hs0 Hn0. remember (cleanupFn qm s) as x eqn:Hx. clear Hx s.
  revert x Hc.
  induction post as [|i post IH]; intros x Hc; [done|]. simpl.
  destruct (step_closed qm x i Hc) as [Hc1 Hq1].
  destruct (step_closed_log x i Hc) as (l & Hl & Hquiet).
  destruct (IH _ Hc1) as (H1 & H2 & H3 & H4 & H5).
  assert (Hrun : running (step qm i x) ⊆ running x).
  { clear -Hc. destruct i as [| |h|t o|]; simpl.
    - unfold limiter. by rewrite Hc.
    - unfold cleanupFn. by rewrite Hc.
    - destruct (reactions x); [|done].
      destruct (timers x !! h) as [[|t]|]; [| |done]; simpl;
        rewrite next_closed by done; by destruct (shouldArm _ _).
    - destruct (decide _); [|done]. rewrite settled_eq. simpl.
      intros u Hu. by apply list_elem_of_filter in Hu as [_ Hu].
    - destruct (reactions x) as [|t rest]; [done|].
      rewrite next_closed by done. by destruct (shouldArm _ _). }
  split; [done|]. split; [by rewrite H2|].
  split; [|split; [|by etrans]].
  - rewrite H3, Hl, started_app.
    enough (started l = []) as -> by (by rewrite app_nil_r).
    clear -Hquiet. induction Hquiet as [|e l He _ IH]; [done|].
    by destruct e.
  - rewrite H4, Hl, count_app.
    rewrite (count_none quiet (isStart admitted) l); [lia| |done].
    by intros [].
Qed.

(** A deadline belongs to a call that waits.  In every state the limiter
    can reach, a pending deadline timer is the one timer of a call that is
    in the queue with its promise pending and whose task was not started:
    a task that starts has cleared its deadline, and a deadline that fired
    is gone. *)
Theorem pending_deadline_belongs_to_waiting_call (m : M)
    (ins : list (Input V E)) (h t : nat) :
  let s := exec qm ins (pRateLimit m) in
  timers s !! h = Some (Deadline t) →
  maxDelay qm ≠ 0
  ∧ t ∈ queue s ∧ promise t s = Some None
  ∧ (t ∉ started (log s)) ∧ (t ∉ running s)
  ∧ call_timerId t s = Some h
  ∧ (∀ h', timers s !! h' = Some (Deadline t) → h' = h).
Proof.
  intros s Hh.
  pose proof (Inv_reachable qm m ins) as HI. fold s in HI.
  destruct (inv_deadline _ _ HI h t Hh) as [Hq Hc].
  assert (Hns : t ∉ started (log s)) by exact (queued_not_started qm s t HI Hq).
  destruct (inv_queue _ _ HI t Hq) as [[Hs Hm]|(_ & Hn & _)]; [|congruence].
  rewrite Hc in Hm. destruct Hm as [Hz _].
  assert (Hlt : t < length (calls s)).
  { apply (inv_bound _ _ HI), elem_of_app. by right. }
  split; [done|]. split; [done|].
  split; [by rewrite (promise_of_settlements qm s t HI Hlt), Hs|].
  split; [done|].
  split; [intros Hr; apply Hns; by apply (inv_running _ _ HI)|].
  split; [done|].
  intros h' Hh'. destruct (inv_deadline _ _ HI h' t Hh') as [_ Hc'].
  congruence.
Qed.

End Kept.
(** ** The claims on the scenarios *)

Import Scenario.

(** C1: the slot of an abandoned entry is never given back.  Concurrency 1
    and a [maxDelay]: the second call times out in the queue while the
    first task runs.  When the first task settles, [next] calls [start()]
    for the abandoned entry, which succeeds, and its runner returns
    without [end()]: two admissions, one [end()], nothing running, nothing
    pending, and [activeCount] stays 1.  A third call is then never
    admitted: it times out in its turn. *)
Theorem abandoned_entry_leaks_its_slot :
  let s := exec timed abandoned init in
  let s' := exec timed [CallLimiter; TimerFires 2] s in
  (count (isStart true) (log s) = 2 ∧ count isEnd (log s) = 1
   ∧ started (log s) = [0])
  ∧ (queue s = [] ∧ running s = [] ∧ reactions s = [] ∧ timers s = ∅)
  ∧ activeCount timed (quotaManager s) = 1%Z
  ∧ (log s' = log s ++ [ESetTimeout 2 (Deadline 2) 50;
                        ENext (FromLimiter 2); EStart false;
                        EReject 2 (RateLimitTimeoutError timeoutMessage);
                        ENext (FromDeadline 2); EStart false]
     ∧ promise 2 s' = Some (Some timedOut)
     ∧ activeCount timed (quotaManager s') = 1%Z).
Proof. vm_compute. repeat split. Qed.

Lemma closed_queue_entry_stays_pending_witness :
  let s := exec one [CallLimiter; CallLimiter; CallCleanup] init in
  let s' := exec one [TaskSettles 0 (inl 7); RunReaction; TimerFires 0;
                      CallLimiter; TimerFires 1] s in
  (maxDelay one = 0 ∧ isClosed s = true ∧ 1 ∈ queue s)
  ∧ queue s' = [1] ∧ promise 1 s' = Some None ∧ (EFactory 1 ∉ log s').
Proof.
  intros s s'.
  assert (H1 : maxDelay one = 0) by reflexivity.
  assert (H2 : isClosed s = true) by reflexivity.
  assert (H3 : 1 ∈ queue s) by (vm_compute; left).
  destruct (closed_queue_entry_stays_pending one Concurrency.fresh
              [CallLimiter; CallLimiter; CallCleanup]
              [TaskSettles 0 (inl 7); RunReaction; TimerFires 0;
               CallLimiter; TimerFires 1] 1 H1 H2 H3)
    as (Hq & Hf & _ & Hp).
  split; [by repeat split|]. split; [exact Hq|]. split; [exact Hp|exact Hf].
Defined.

Lemma started_task_never_times_out_witness :
  let s := exec timed abandoned init in
  EFactory 0 ∈ log s
  ∧ (∀ h, timers s !! h ≠ Some (Deadline 0))
  ∧ (∀ msg, EReject 0 (RateLimitTimeoutError msg) ∉ log s).
Proof.
  intros s.
  assert (H1 : EFactory 0 ∈ log s).
  { vm_compute. do 4 right. left. }
  destruct (started_task_never_times_out timed Concurrency.fresh abandoned 0 H1)
    as (Ha & Hb & _).
  by repeat split.
Defined.

Lemma deadline_abandons_queued_call_witness :
  let s := exec timed [CallLimiter; CallLimiter] init in
  let s'' := exec timed [TaskSettles 0 (inl 7); RunReaction; CallLimiter]
               (step timed (TimerFires 1) s) in
  (timers s !! 1 = Some (Deadline 1) ∧ reactions s = [])
  ∧ promise 1 s'' = Some (Some timedOut)
  ∧ settlements 1 (log s'') = [timedOut]
  ∧ (EFactory 1 ∉ log s'').
Proof.
  intros s s''.
  assert (H1 : timers s !! 1 = Some (Deadline 1)) by (by vm_compute).
  assert (H2 : reactions s = []) by reflexivity.
  destruct (deadline_abandons_queued_call timed Concurrency.fresh
              [CallLimiter; CallLimiter]
              [TaskSettles 0 (inl 7); RunReaction; CallLimiter] 1 1 H1 H2)
    as (_ & _ & _ & _ & Hf & Hs & Hp).
  by repeat split.
Defined.

Lemma settled_task_ends_then_settles_then_next_witness :
  let s := exec one [CallLimiter; CallLimiter] init in
  let s' := step one (TaskSettles 0 (inr 3)) s in
  let s'' := exec one [CallLimiter; RunReaction] s' in
  0 ∈ running s
  ∧ log s' = log s ++ [EEnd; EReject 0 (TaskError 3)]
  ∧ promise 0 s' = Some (Some (Rejected (TaskError 3)))
  ∧ occurrences 0 (reactions s'')
    + occurrences (FromSettled 0) (nexts (log s'')) = 1.
Proof.
  intros s s' s''.
  assert (H1 : 0 ∈ running s) by (vm_compute; left).
  destruct (settled_task_ends_then_settles_then_next one Concurrency.fresh
              [CallLimiter; CallLimiter] [CallLimiter; RunReaction] 0 (inr 3) H1)
    as (_ & Hl & _ & Hp & _ & Ho & _).
  by repeat split.
Defined.

Lemma fallback_timer_armed_once_witness :
  let s := exec timed closedWhileQueued init in
  timers s !! 2 = Some FallbackPoll ∧ reactions s = []
  ∧ timerId s = Some 2
  ∧ step timed (TimerFires 2) s
    = next timed FromFallback (set_timerId None (set_timers (delete 2 (timers s)) s)).
Proof.
  intros s.
  assert (H1 : timers s !! 2 = Some FallbackPoll) by (by vm_compute).
  assert (H2 : reactions s = []) by reflexivity.
  destruct (fallback_timer_armed_once timed Concurrency.fresh closedWhileQueued
              FromFallback s 2 2 2) as (_ & Hiff & _ & Hfire).
  destruct (Hfire H1 H2) as [Hstep _].
  split; [exact H1|]. split; [exact H2|]. split; [|exact Hstep].
  by apply Hiff.
Defined.

(** C10 as it is stated fails: a call of [next] in a closed limiter whose
    queue is not empty and whose [activeCount] is zero arms no timer when
    one is armed.  Here the deadline of the queued call fires while the
    poll timer is pending: [next] is called and sets no timer. *)
Lemma closed_next_arms_none_when_armed :
  let s := exec timed closedWhileQueued init in
  let s' := step timed (TimerFires 1) s in
  (isClosed s = true ∧ queue s = [1]
   ∧ activeCount timed (quotaManager s) = 0%Z
   ∧ timers s = {[ 1 := Deadline 1; 2 := FallbackPoll ]})
  ∧ log s' = log s ++ [EReject 1 (RateLimitTimeoutError timeoutMessage);
                       ENext (FromDeadline 1)]
  ∧ timers s' = {[ 2 := FallbackPoll ]}
  ∧ nextTimer s' = nextTimer s
  ∧ count isArm (log s') = count isArm (log s).
Proof. vm_compute. repeat split. Qed.

Lemma closed_limiter_rearms_when_unarmed_witness :
  let s := exec timed closedWhileQueued init in
  let s3 := Nat.iter 3 (poll timed) s in
  (isClosed s = true ∧ queue s ≠ [] ∧ activeCount timed (quotaManager s) = 0%Z
   ∧ reactions s = [] ∧ is_Some (timerId s))
  ∧ is_Some (timerId s3)
  ∧ count isArm (log s3) = count isArm (log s) + 3.
Proof.
  intros s s3.
  assert (H1 : isClosed s = true) by reflexivity.
  assert (H2 : queue s ≠ []) by (by vm_compute).
  assert (H3 : activeCount timed (quotaManager s) = 0%Z) by reflexivity.
  assert (H4 : reactions s = []) by reflexivity.
  assert (H5 : is_Some (timerId s)) by (by exists 2).
  destruct (closed_limiter_rearms_when_unarmed timed Concurrency.fresh
              closedWhileQueued FromFallback s 3) as [_ Hpoll].
  destruct (Hpoll H1 H2 H3 H4 H5) as (Ha & Hb & _).
  by repeat split.
Defined.

(** The tasks of the scenario of section 8 start in the order A, B, C, and
    B does not start before A has settled. *)
Example three_in_a_row_start_in_order :
  started (log (exec one threeInARow init)) = [0; 1; 2]
  ∧ started (log (exec one [CallLimiter; CallLimiter; CallLimiter] init)) = [0]
  ∧ count (isStart true) (log (exec one threeInARow init)) = 3
  ∧ count isEnd (log (exec one threeInARow init)) = 3.
Proof. vm_compute. repeat split. Qed.

(** ** The limiter at work, again *)



Lemma running_tasks_within_limit_witness :
  let s := exec timed (abandoned ++ [CallLimiter]) init in
  (countsActive timed 1 ∧ activeCount timed Concurrency.fresh = 0%Z)
  ∧ (Z.of_nat (length (running s)) ≤ activeCount timed (quotaManager s))%Z
  ∧ (activeCount timed (quotaManager s) ≤ 1)%Z.
Proof.
  intros s.
  assert (H1 : countsActive timed 1).
  { split; [|split; [|split]].
    - intros m0 m1 H. simpl in H. destruct (Concurrency.closed m0); [done|].
      destruct (Z.ltb_spec (Concurrency.active m0) 1); [|done].
      injection H as <-. simpl. lia.
    - intros m0 m1 H. simpl in H.
      destruct (Concurrency.closed m0); [by injection H as <-|].
      destruct (Z.ltb_spec (Concurrency.active m0) 1); [done|].
      by injection H as <-.
    - done.
    - done. }
  assert (H2 : activeCount timed Concurrency.fresh = 0%Z) by reflexivity.
  destruct (running_tasks_within_limit timed 1 Concurrency.fresh
              (abandoned ++ [CallLimiter]) H1 H2) as (Ha & Hb & _).
  split; [by split|]. split; [exact Ha|exact Hb].
Defined.

Lemma idle_limiter_drops_its_poll_timer_witness :
  let w := Window.manager 0 in
  let s := exec w [CallLimiter; CallLimiter]
             (pRateLimit (Window.mk [false] 0 false) : State Window.t nat nat) in
  let s' := step w (TimerFires 0) s in
  (queue s = [] ∧ reactions s = [] ∧ timers s !! 0 = Some FallbackPoll)
  ∧ started (log s) = [0; 1]
  ∧ timers s' = ∅ ∧ timerId s' = None.
Proof.
  intros w s s'.
  assert (H1 : queue s = []) by reflexivity.
  assert (H2 : reactions s = []) by reflexivity.
  assert (H3 : timers s !! 0 = Some FallbackPoll) by (by vm_compute).
  destruct (idle_limiter_drops_its_poll_timer w (Window.mk [false] 0 false)
              [CallLimiter; CallLimiter] 0 FallbackPoll H1 H2 H3)
    as (_ & _ & Ha & Hb & _).
  by repeat split.
Defined.


Lemma refused_call_waits_in_queue_witness :
  let s := exec timed [CallLimiter] init in
  let s' := (limiter timed s).2 in
  (isClosed s = false
   ∧ start timed (quotaManager s) = (false, Concurrency.mk 1 false))
  ∧ queue s' = [1] ∧ promise 1 s' = Some None
  ∧ timers s' !! 1 = Some (Deadline 1).
Proof.
  intros s s'.
  assert (H1 : isClosed s = false) by reflexivity.
  assert (H2 : start timed (quotaManager s) = (false, Concurrency.mk 1 false))
    by reflexivity.
  destruct (refused_call_waits_in_queue timed Concurrency.fresh [CallLimiter]
              (Concurrency.mk 1 false) H1 H2)
    as (Ha & Hb & _ & _ & _ & Hc & _).
  destruct (decide (maxDelay timed = 0)) as [Hz|_] in Hc; [done|].
  destruct Hc as [_ Hc].
  by repeat split.
Defined.

Lemma pending_deadline_belongs_to_waiting_call_witness :
  let s := exec timed [CallLimiter; CallLimiter] init in
  timers s !! 1 = Some (Deadline 1)
  ∧ queue s = [1] ∧ promise 1 s = Some None ∧ running s = [0]
  ∧ call_timerId 1 s = Some 1.
Proof.
  intros s.
  assert (H1 : timers s !! 1 = Some (Deadline 1)) by (by vm_compute).
  destruct (pending_deadline_belongs_to_waiting_call timed Concurrency.fresh
              [CallLimiter; CallLimiter] 1 1 H1)
    as (_ & _ & Ha & _ & _ & Hb & _).
  by repeat split.
Defined.
